(** * MindFlow: the node-link layout engine and the canvas viewport

    A shallow embedding of

    - [LayoutService] (src/services/layoutService.ts): [applyLayout] with its
      four strategies and [centerOnNode];
    - the culling and coordinate arithmetic of the [Canvas] component
      (src/components/Canvas.tsx): [visibleNodes], [visibleConnections],
      [renderConnections] and the two affine transforms it applies inline;
    - the geometry of the [Minimap] component (src/components/Minimap.tsx):
      [minimapData] and [handleMinimapPress];
    - the actions of the store (src/store/mindMapStore.ts) that change
      the nodes and connections of the current map.

    Conventions of the embedding.

    - A JavaScript [number] is a real number: arithmetic is exact, and
      neither NaN nor the infinities exist.  [Math.cos], [Math.sin],
      [Math.sqrt] and [Math.PI] are [cos], [sin], [sqrt] and [PI].
    - An optional numeric field is an [option R]; [None] is [undefined].
    - An object used as a dictionary of positions is a [gmap string _];
      the dictionary of nodes, whose enumeration order the layouts depend
      on, is an association list in enumeration order.
    - An uncaught [TypeError] is the outcome [Throws]. *)

From Stdlib Require Import Reals Lra ZArith Lia.
From stdpp Require Import gmap strings list fin_maps.

Open Scope R_scope.

(** ** Numbers *)

#[global] Instance R_eq_dec : EqDecision R := Req_dec_T.
#[global] Instance Rlt_decision (a b : R) : Decision (a < b) := Rlt_dec a b.
#[global] Instance Rgt_decision (a b : R) : Decision (a > b) := Rgt_dec a b.
#[global] Instance Rle_decision (a b : R) : Decision (a <= b) := Rle_dec a b.

(** [v || d] on numbers: [d] replaces a falsy [v], that is [undefined] or [0]. *)
Definition or_default (v : option R) (d : R) : R :=
  match v with
  | Some r => if decide (r = 0) then d else r
  | None => d
  end.

(** [n || d] for a number that is always defined ([Math.sqrt(..) || 1]). *)
Definition or_num (r d : R) : R := if decide (r = 0) then d else r.

(** The smallest integer that is not below [r] ([Math.ceil]). *)
Definition ceilZ (r : R) : Z := (1 - up (- r))%Z.

(** How often the body of [for (let i = 0; i < m; i++)] runs. *)
Definition loop_count (m : R) : nat := Z.to_nat (ceilZ m).

(** ** Data model (src/types/index.ts) *)

Record Position : Type := mkPosition { pos_x : R; pos_y : R }.

#[global] Instance Position_inhabited : Inhabited Position :=
  populate (mkPosition 0 0).

Inductive ConnectionType : Type := related | blocking | dependency.

#[global] Instance ConnectionType_eq_dec : EqDecision ConnectionType.
Proof. solve_decision. Defined.

(** Of a [Node] only the identifier and the position are read by the code
    embedded here. *)
Record Node : Type := mkNode { node_id : string; node_position : Position }.

Record Connection : Type := mkConnection {
  conn_id : string;
  conn_from : string;
  conn_to : string;
  conn_type : ConnectionType
}.

(** [{ [key: string]: Node }] in enumeration order. *)
Definition NodeDict : Type := list (string * Node).

(** [nodes[k]] *)
Definition dict_get (nodes : NodeDict) (k : string) : option Node :=
  (list_to_map nodes : gmap string Node) !! k.

(** [Object.values(nodes)] *)
Definition Object_values (nodes : NodeDict) : list Node := nodes.*2.

(** The store files every node under its own identifier
    ([addNode]: [nodes: { ...nodes, [newNode.id]: newNode }]). *)
Definition keyed_by_id (nodes : NodeDict) : Prop :=
  NoDup nodes.*1 ∧ ∀ k n, (k, n) ∈ nodes → node_id n = k.

Record MindMap : Type := mkMindMap {
  map_nodes : NodeDict;
  map_connections : list Connection
}.

(** ** Outcomes *)

Inductive outcome (A : Type) : Type :=
| Returns (a : A)
| Throws
| OutOfFuel.
Arguments Returns {A} a.
Arguments Throws {A}.
Arguments OutOfFuel {A}.

#[global] Instance outcome_bind : MBind outcome := λ A B k m,
  match m with
  | Returns a => k a
  | Throws => Throws
  | OutOfFuel => OutOfFuel
  end.

(** [l.forEach((a, index) => ...)] threading a state, the index starting at [i]. *)
Fixpoint forEach_indexed {A St} (f : St → A → nat → St) (l : list A) (i : nat) (s : St) : St :=
  match l with
  | [] => s
  | a :: l' => forEach_indexed f l' (S i) (f s a i)
  end.

(** [l.forEach(a => ...)] where the body may throw. *)
Fixpoint forEach_throwing {A St} (f : St → A → outcome St) (l : list A) (s : St) : outcome St :=
  match l with
  | [] => Returns s
  | a :: l' => s' ← f s a; forEach_throwing f l' s'
  end.

(** [nodes.find(n => n.id === k)] *)
Definition find_node (nodes : list Node) (k : string) : option Node :=
  List.find (λ n, bool_decide (node_id n = k)) nodes.

(** ** Canvas: culling and coordinate transforms *)

Record Rect : Type := mkRect {
  rect_left : R; rect_top : R; rect_right : R; rect_bottom : R
}.

(** A point of the closed rectangle. *)
Definition in_rect (p : Position) (r : Rect) : Prop :=
  rect_left r <= pos_x p <= rect_right r ∧ rect_top r <= pos_y p <= rect_bottom r.

(** Two closed rectangles share a point. *)
Definition intersects (a b : Rect) : Prop := ∃ p, in_rect p a ∧ in_rect p b.

(** The footprint of a node: [nodeSize = 120] wide, [80] high. *)
Definition node_box (node : Node) : Rect :=
  let p := node_position node in
  mkRect (pos_x p) (pos_y p) (pos_x p + 120) (pos_y p + 80).

(** [renderConnections]: [x1 = sourceNode.position.x * zoom + pan.x]. *)
Definition worldToScreen (p pan : Position) (zoom : R) : Position :=
  mkPosition (pos_x p * zoom + pos_x pan) (pos_y p * zoom + pos_y pan).

(** [onPanResponderMove]: [cursorX = (gestureState.x0 - pan.x) / zoom]. *)
Definition screenToWorld (q pan : Position) (zoom : R) : Position :=
  mkPosition ((pos_x q - pos_x pan) / zoom) ((pos_y q - pos_y pan) / zoom).

Section Canvas.
(** [Dimensions.get('window')] of React Native. *)
Variables SCREEN_WIDTH SCREEN_HEIGHT : R.

Definition buffer : R := 200.

Definition viewport (pan : Position) (zoom : R) : Rect :=
  mkRect (- pos_x pan / zoom - buffer)
         (- pos_y pan / zoom - buffer)
         ((- pos_x pan + SCREEN_WIDTH) / zoom + buffer)
         ((- pos_y pan + SCREEN_HEIGHT) / zoom + buffer).

(** The predicate of the [filter] in [visibleNodes]. *)
Definition node_in_view (pan : Position) (zoom : R) (node : Node) : Prop :=
  let nodeSize := 120 in
  let viewportLeft := - pos_x pan / zoom - buffer in
  let viewportTop := - pos_y pan / zoom - buffer in
  let viewportRight := (- pos_x pan + SCREEN_WIDTH) / zoom + buffer in
  let viewportBottom := (- pos_y pan + SCREEN_HEIGHT) / zoom + buffer in
  let nodeLeft := pos_x (node_position node) in
  let nodeTop := pos_y (node_position node) in
  let nodeRight := pos_x (node_position node) + nodeSize in
  let nodeBottom := pos_y (node_position node) + 80 in
  ¬ (nodeRight < viewportLeft ∨ nodeLeft > viewportRight ∨
     nodeBottom < viewportTop ∨ nodeTop > viewportBottom).

#[local] Instance node_in_view_dec pan zoom node : Decision (node_in_view pan zoom node).
Proof. unfold node_in_view. cbv zeta. apply _. Defined.

Definition visibleNodes (currentMap : option MindMap) (pan : Position) (zoom : R) : list Node :=
  match currentMap with
  | None => []
  | Some m => filter (node_in_view pan zoom) (Object_values (map_nodes m))
  end.

(** The predicate of the [filter] in [visibleConnections]. *)
Definition connection_in_view (nodes : NodeDict) (visible : list Node) (connection : Connection) : Prop :=
  is_Some (dict_get nodes (conn_from connection)) ∧
  is_Some (dict_get nodes (conn_to connection)) ∧
  Exists (λ n, node_id n = conn_from connection) visible ∧
  Exists (λ n, node_id n = conn_to connection) visible.

#[local] Instance connection_in_view_dec nodes visible c :
  Decision (connection_in_view nodes visible c).
Proof. unfold connection_in_view. apply _. Defined.

Definition visibleConnections (currentMap : option MindMap) (visible : list Node) : list Connection :=
  match currentMap with
  | None => []
  | Some m => filter (connection_in_view (map_nodes m) visible) (map_connections m)
  end.
End Canvas.

(** ** Canvas: the lines of the connections *)

(** The [<Line>] element drawn for a connection; [line_dashed] is
    [strokeDasharray = '5,5']. *)
Record Line : Type := mkLine {
  line_key : string;
  line_x1 : R; line_y1 : R; line_x2 : R; line_y2 : R;
  line_dashed : bool
}.

(** The body of [visibleConnections.map(connection => ...)]: [null]
    where the dictionary has no node under one of the ends. *)
Definition render_connection (currentMap : option MindMap) (pan : Position) (zoom : R)
    (connection : Connection) : option Line :=
  let sourceNode := m ← currentMap; dict_get (map_nodes m) (conn_from connection) in
  let targetNode := m ← currentMap; dict_get (map_nodes m) (conn_to connection) in
  match sourceNode, targetNode with
  | Some sourceNode, Some targetNode =>
      let x1 := pos_x (node_position sourceNode) * zoom + pos_x pan in
      let y1 := pos_y (node_position sourceNode) * zoom + pos_y pan in
      let x2 := pos_x (node_position targetNode) * zoom + pos_x pan in
      let y2 := pos_y (node_position targetNode) * zoom + pos_y pan in
      Some (mkLine (conn_id connection) x1 y1 x2 y2
                   (bool_decide (conn_type connection = dependency)))
  | _, _ => None
  end.

(** [renderConnections]: [null] without a visible connection, otherwise
    one element per visible connection. *)
Definition renderConnections (currentMap : option MindMap)
    (visibleConnections : list Connection) (pan : Position) (zoom : R)
    : option (list (option Line)) :=
  match visibleConnections with
  | [] => None
  | _ :: _ => Some (render_connection currentMap pan zoom <$> visibleConnections)
  end.

(** ** LayoutService (src/services/layoutService.ts) *)

Inductive LayoutAlgorithm : Type := force_directed | hierarchical | circular | grid.

Record LayoutOptions : Type := mkLayoutOptions {
  algorithm : LayoutAlgorithm;
  spacing : option R;
  centerX : option R;
  centerY : option R;
  maxIterations : option R;
  attractionForce : option R;
  repulsionForce : option R
}.

(** [{ [key: string]: Position }] *)
Abbreviation Positions := (gmap string Position).

(** *** Force-directed layout *)

(** The first [forEach] of [forceDirectedLayout]: a node is seeded on the
    circle of radius 200 unless [positions] already has its identifier. *)
Definition seed_node (count : nat) (positions : Positions) (node : Node) (index : nat) : Positions :=
  match positions !! node_id node with
  | Some _ => positions
  | None =>
      <[node_id node :=
          mkPosition (cos (INR index / INR count * 2 * PI) * 200)
                     (sin (INR index / INR count * 2 * PI) * 200)]> positions
  end.

Definition seed_positions (nodes : list Node) : Positions :=
  forEach_indexed (seed_node (length nodes)) nodes 0%nat ∅.

(** The body of the inner [nodes.forEach(otherNode => ...)]. *)
Definition repel (positions : Positions) (repulsionForce : R) (node : Node)
    (force : Position) (otherNode : Node) : Position :=
  if decide (node_id node = node_id otherNode) then force
  else
    let dx := pos_x (positions !!! node_id otherNode) - pos_x (positions !!! node_id node) in
    let dy := pos_y (positions !!! node_id otherNode) - pos_y (positions !!! node_id node) in
    let distance := or_num (sqrt (dx * dx + dy * dy)) 1 in
    let repulsion := repulsionForce / (distance * distance) in
    mkPosition (pos_x force - dx / distance * repulsion)
               (pos_y force - dy / distance * repulsion).

(** One of the two [if] blocks of [connections.forEach]: [self] is the end
    of the connection compared with [node.id], [other] the end looked up
    with [nodes.find]. *)
Definition attract_end (nodes : list Node) (positions : Positions) (attractionForce : R)
    (node : Node) (self other : string) (force : Position) : Position :=
  if decide (self = node_id node) then
    match find_node nodes other with
    | Some found =>
        let dx := pos_x (positions !!! node_id found) - pos_x (positions !!! node_id node) in
        let dy := pos_y (positions !!! node_id found) - pos_y (positions !!! node_id node) in
        mkPosition (pos_x force + dx * attractionForce)
                   (pos_y force + dy * attractionForce)
    | None => force
    end
  else force.

(** The body of [connections.forEach(connection => ...)]. *)
Definition attract (nodes : list Node) (positions : Positions) (attractionForce : R)
    (node : Node) (force : Position) (connection : Connection) : Position :=
  let force1 :=
    attract_end nodes positions attractionForce node
      (conn_from connection) (conn_to connection) force in
  attract_end nodes positions attractionForce node
    (conn_to connection) (conn_from connection) force1.

(** [forces[node.id]] once the body of the outer [forEach] has run for [node]. *)
Definition node_force (nodes : list Node) (connections : list Connection)
    (positions : Positions) (attractionForce repulsionForce : R) (node : Node) : Position :=
  let repelled := fold_left (repel positions repulsionForce node) nodes (mkPosition 0 0) in
  fold_left (attract nodes positions attractionForce node) connections repelled.

Definition compute_forces (nodes : list Node) (connections : list Connection)
    (positions : Positions) (attractionForce repulsionForce : R) : Positions :=
  fold_left
    (λ forces node,
       <[node_id node :=
           node_force nodes connections positions attractionForce repulsionForce node]> forces)
    nodes ∅.

(** [positions[node.id].x += forces[node.id].x * damping], and the same for [y]. *)
Definition move_node (forces : Positions) (positions : Positions) (node : Node) : Positions :=
  let damping := 0.9 in
  alter (λ p, mkPosition (pos_x p + pos_x (forces !!! node_id node) * damping)
                         (pos_y p + pos_y (forces !!! node_id node) * damping))
        (node_id node) positions.

(** One pass of the relaxation loop. *)
Definition relax (nodes : list Node) (connections : list Connection)
    (attractionForce repulsionForce : R) (positions : Positions) : Positions :=
  let forces := compute_forces nodes connections positions attractionForce repulsionForce in
  fold_left (move_node forces) nodes positions.

Definition forceDirectedLayout (nodes : list Node) (connections : list Connection)
    (options : LayoutOptions) : Positions :=
  let spacing := or_default (spacing options) 150 in
  let maxIterations := or_default (maxIterations options) 100 in
  let attractionForce := or_default (attractionForce options) 0.01 in
  let repulsionForce := or_default (repulsionForce options) 1000 in
  Nat.iter (loop_count maxIterations)
           (relax nodes connections attractionForce repulsionForce)
           (seed_positions nodes).

(** *** Circular layout *)

Definition circularLayout (nodes : list Node) (options : LayoutOptions) : Positions :=
  let radius := or_default (spacing options) 200 in
  let centerX := or_default (centerX options) 0 in
  let centerY := or_default (centerY options) 0 in
  forEach_indexed
    (λ positions node index,
       let angle := INR index / INR (length nodes) * 2 * PI in
       <[node_id node := mkPosition (centerX + cos angle * radius)
                                    (centerY + sin angle * radius)]> positions)
    nodes 0%nat ∅.

(** *** Grid layout *)

(** [Math.ceil(n / cols)] on whole numbers. *)
Definition ceil_div (n cols : nat) : nat :=
  if (n mod cols =? 0)%nat then (n / cols)%nat else S (n / cols).

Definition gridLayout (nodes : list Node) (options : LayoutOptions) : Positions :=
  let spacing := or_default (spacing options) 150 in
  let centerX := or_default (centerX options) 0 in
  let centerY := or_default (centerY options) 0 in
  let cols := Nat.sqrt_up (length nodes) in
  let rows := ceil_div (length nodes) cols in
  let totalWidth := (INR cols - 1) * spacing in
  let totalHeight := (INR rows - 1) * spacing in
  let startX := centerX - totalWidth / 2 in
  let startY := centerY - totalHeight / 2 in
  forEach_indexed
    (λ positions node index,
       let row := (index / cols)%nat in
       let col := (index mod cols)%nat in
       <[node_id node := mkPosition (startX + INR col * spacing)
                                    (startY + INR row * spacing)]> positions)
    nodes 0%nat ∅.

(** *** Hierarchical layout *)

(** [graph] and [inDegree] after [nodes.forEach(node => { graph[node.id] = [];
    inDegree[node.id] = 0; })]. *)
Definition init_graph (nodes : list Node) : gmap string (list string) * gmap string Z :=
  fold_left (λ '(graph, inDegree) node,
               (<[node_id node := []]> graph, <[node_id node := 0%Z]> inDegree))
            nodes (∅, ∅).

(** The body of [connections.forEach(conn => ...)]: [graph[conn.from].push]
    throws when [graph] has no entry for [conn.from]. *)
Definition add_dependency (st : gmap string (list string) * gmap string Z) (conn : Connection)
    : outcome (gmap string (list string) * gmap string Z) :=
  let '(graph, inDegree) := st in
  if decide (conn_type conn = dependency) then
    match graph !! conn_from conn with
    | Some targets =>
        Returns (<[conn_from conn := targets ++ [conn_to conn]]> graph,
                 <[conn_to conn := (default 0 (inDegree !! conn_to conn) + 1)%Z]> inDegree)
    | None => Throws
    end
  else Returns st.

Definition build_graph (nodes : list Node) (connections : list Connection)
    : outcome (gmap string (list string) * gmap string Z) :=
  forEach_throwing add_dependency connections (init_graph nodes).

(** The body of [graph[node.id].forEach(targetId => ...)].  An identifier
    without an entry in [inDegree] would be decremented to NaN, which no
    later comparison with 0 accepts: the entry stays absent here. *)
Definition release_target (nodes : list Node)
    (st : gmap string Z * list (option Node)) (targetId : string)
    : gmap string Z * list (option Node) :=
  let '(inDegree, nextLevel) := st in
  match inDegree !! targetId with
  | Some d =>
      let inDegree' := <[targetId := (d - 1)%Z]> inDegree in
      if decide ((d - 1)%Z = 0%Z)
      then (inDegree', nextLevel ++ [find_node nodes targetId])
      else (inDegree', nextLevel)
  | None => st
  end.

(** The body of [currentLevel.forEach(node => ...)]: reading [node.id] of
    an [undefined] pushed by [nodes.find(..)!] throws, and so does
    [graph[node.id].forEach] without an entry. *)
Definition release_node (nodes : list Node) (graph : gmap string (list string))
    (st : gmap string Z * list (option Node)) (node : option Node)
    : outcome (gmap string Z * list (option Node)) :=
  match node with
  | Some n =>
      match graph !! node_id n with
      | Some targets => Returns (fold_left (release_target nodes) targets st)
      | None => Throws
      end
  | None => Throws
  end.

(** The [while (currentLevel.length > 0)] loop, bounded by [fuel]. *)
Fixpoint kahn_levels (fuel : nat) (nodes : list Node) (graph : gmap string (list string))
    (inDegree : gmap string Z) (currentLevel : list (option Node))
    : outcome (list (list (option Node))) :=
  match currentLevel with
  | [] => Returns []
  | _ :: _ =>
      match fuel with
      | O => OutOfFuel
      | S fuel' =>
          '(inDegree', nextLevel) ←
            forEach_throwing (release_node nodes graph) currentLevel (inDegree, []);
          levels ← kahn_levels fuel' nodes graph inDegree' nextLevel;
          Returns (currentLevel :: levels)
      end
  end.

(** The body of [levels.forEach((levelNodes, levelIndex) => ...)]. *)
Definition place_level (spacing centerX centerY : R)
    (positions : Positions) (levelNodes : list (option Node)) (levelIndex : nat)
    : outcome Positions :=
  let levelWidth := INR (length levelNodes) * spacing in
  let startX := centerX - levelWidth / 2 in
  forEach_indexed
    (λ acc node nodeIndex,
       positions ← acc;
       match node with
       | Some n =>
           Returns (<[node_id n := mkPosition (startX + INR nodeIndex * spacing)
                                              (centerY + INR levelIndex * spacing)]> positions)
       | None => Throws
       end)
    levelNodes 0%nat (Returns positions).

Definition place_levels (spacing centerX centerY : R) (levels : list (list (option Node)))
    : outcome Positions :=
  forEach_indexed
    (λ acc levelNodes levelIndex,
       positions ← acc;
       place_level spacing centerX centerY positions levelNodes levelIndex)
    levels 0%nat (Returns ∅).

(** Enough passes for the [while] loop: one more than [inDegree] has keys. *)
Definition kahn_fuel (inDegree : gmap string Z) : nat := S (size inDegree).

Definition hierarchicalLayout (nodes : list Node) (connections : list Connection)
    (options : LayoutOptions) : outcome Positions :=
  let spacing := or_default (spacing options) 200 in
  '(graph, inDegree) ← build_graph nodes connections;
  let currentLevel :=
    Some <$> filter (λ node, inDegree !! node_id node = Some 0%Z) nodes in
  levels ← kahn_levels (kahn_fuel inDegree) nodes graph inDegree currentLevel;
  let centerX := or_default (centerX options) 0 in
  let centerY := or_default (centerY options) 0 in
  place_levels spacing centerX centerY levels.

(** *** applyLayout *)

Definition applyLayout (nodes : NodeDict) (connections : list Connection)
    (options : LayoutOptions) : outcome Positions :=
  let nodeList := Object_values nodes in
  if decide (length nodeList = 0%nat) then Returns ∅
  else
    match algorithm options with
    | force_directed => Returns (forceDirectedLayout nodeList connections options)
    | hierarchical => hierarchicalLayout nodeList connections options
    | circular => Returns (circularLayout nodeList options)
    | grid => Returns (gridLayout nodeList options)
    end.

(** *** centerOnNode *)

(** [visited], [positions] and the identifiers waiting in [queue]; the
    [level] and [angle] fields of a queue entry are never read. *)
Record bfs_state : Type := mkBfs {
  bfs_visited : gset string;
  bfs_positions : Positions;
  bfs_queue : list string
}.

(** The body of [connections.forEach(conn => ...)] for the dequeued
    [nodeId].  [nextNodeId && nodes[nextNodeId]] rejects [null], the empty
    string and an identifier that is no key of [nodes]. *)
Definition visit_connection (nodes : NodeDict) (levelSize : nat) (radius : R)
    (nodeId : string) (st : bfs_state) (conn : Connection) : bfs_state :=
  let nextNodeId : option string :=
    if decide (conn_from conn = nodeId ∧ conn_to conn ∉ bfs_visited st)
    then Some (conn_to conn)
    else if decide (conn_to conn = nodeId ∧ conn_from conn ∉ bfs_visited st)
    then Some (conn_from conn)
    else None in
  match nextNodeId with
  | Some next =>
      if decide (next ≠ "" ∧ is_Some (dict_get nodes next)) then
        let angle :=
          INR (size (bfs_visited st)) / INR (Nat.max 6 (levelSize * 2)) * 2 * PI in
        mkBfs ({[next]} ∪ bfs_visited st)
              (<[next := mkPosition (cos angle * radius) (sin angle * radius)]>
                 (bfs_positions st))
              (bfs_queue st ++ [next])
      else st
  | None => st
  end.

(** The [for (let i = 0; i < levelSize; i++)] loop with [remaining] passes
    to go; destructuring the [undefined] that [shift] returns on an empty
    queue throws. *)
Fixpoint visit_level (remaining : nat) (nodes : NodeDict) (connections : list Connection)
    (levelSize : nat) (radius : R) (st : bfs_state) : outcome bfs_state :=
  match remaining with
  | O => Returns st
  | S remaining' =>
      match bfs_queue st with
      | [] => Throws
      | nodeId :: rest =>
          let st' := mkBfs (bfs_visited st) (bfs_positions st) rest in
          visit_level remaining' nodes connections levelSize radius
            (fold_left (visit_connection nodes levelSize radius nodeId) connections st')
      end
  end.

(** The [while (queue.length > 0)] loop, bounded by [fuel]. *)
Fixpoint bfs_levels (fuel : nat) (nodes : NodeDict) (connections : list Connection)
    (level : nat) (st : bfs_state) : outcome Positions :=
  match bfs_queue st with
  | [] => Returns (bfs_positions st)
  | _ :: _ =>
      match fuel with
      | O => OutOfFuel
      | S fuel' =>
          let levelSize := length (bfs_queue st) in
          let radius := (INR level + 1) * 150 in
          st' ← visit_level levelSize nodes connections levelSize radius st;
          bfs_levels fuel' nodes connections (S level) st'
      end
  end.

Definition centerOnNode (nodes : NodeDict) (centerNodeId : string)
    (connections : list Connection) : outcome Positions :=
  match dict_get nodes centerNodeId with
  | None => Returns ∅
  | Some centerNode =>
      bfs_levels (S (length nodes)) nodes connections 0%nat
        (mkBfs {[centerNodeId]} {[centerNodeId := mkPosition 0 0]} [centerNodeId])
  end.

(** ** Minimap (src/components/Minimap.tsx) *)

Definition MINIMAP_SIZE : R := 120.
Definition MINIMAP_PADDING : R := 10.

(** [Math.min(...l)] and [Math.max(...l)] of the non-empty list [x :: l]. *)
Definition Math_min (x : R) (l : list R) : R := fold_left Rmin l x.
Definition Math_max (x : R) (l : list R) : R := fold_left Rmax l x.

(** The [viewport] property of the component. *)
Record Viewport : Type := mkViewport {
  vp_pan : Position; vp_zoom : R; vp_width : R; vp_height : R
}.

Record Bounds : Type := mkBounds { minX : R; minY : R; maxX : R; maxY : R }.

(** A node with its minimap coordinates: [{ ...node, x, y }]. *)
Record MinimapNode : Type := mkMinimapNode { mn_node : Node; mn_x : R; mn_y : R }.

(** A connection with the ends of its line: [{ ...conn, x1, y1, x2, y2 }]. *)
Record MinimapLine : Type := mkMinimapLine {
  ml_conn : Connection; ml_x1 : R; ml_y1 : R; ml_x2 : R; ml_y2 : R
}.

Record ViewportRect : Type := mkViewportRect {
  vr_x : R; vr_y : R; vr_width : R; vr_height : R
}.

Record MinimapData : Type := mkMinimapData {
  md_bounds : Bounds;
  md_scale : R;
  md_nodes : list MinimapNode;
  md_connections : list MinimapLine;
  md_viewportRect : ViewportRect
}.

(** The body of [connections.map(conn => ...)]; [None] is the [null] that
    [filter(Boolean)] drops. *)
Definition transform_connection (transformedNodes : list MinimapNode) (scale : R)
    (conn : Connection) : option MinimapLine :=
  let fromNode := List.find (λ n, bool_decide (node_id (mn_node n) = conn_from conn))
                            transformedNodes in
  let toNode := List.find (λ n, bool_decide (node_id (mn_node n) = conn_to conn))
                          transformedNodes in
  match fromNode, toNode with
  | Some fromNode, Some toNode =>
      Some (mkMinimapLine conn
              (mn_x fromNode + 60 * scale) (mn_y fromNode + 40 * scale)
              (mn_x toNode + 60 * scale) (mn_y toNode + 40 * scale))
  | _, _ => None
  end.

(** [minimapData]: the first branch is the one for
    [Object.keys(nodes).length === 0]; [Math.min] and [Math.max] are
    applied to the non-empty [nodeList] only. *)
Definition minimapData (nodes : NodeDict) (connections : list Connection)
    (viewport : Viewport) : MinimapData :=
  match Object_values nodes with
  | [] =>
      mkMinimapData (mkBounds 0 0 100 100) 1 [] []
                    (mkViewportRect 0 0 MINIMAP_SIZE MINIMAP_SIZE)
  | first :: others =>
      let nodeList := first :: others in
      let minX := Math_min (pos_x (node_position first))
                           ((λ n, pos_x (node_position n)) <$> others) in
      let minY := Math_min (pos_y (node_position first))
                           ((λ n, pos_y (node_position n)) <$> others) in
      let maxX := Math_max (pos_x (node_position first) + 120)
                           ((λ n, pos_x (node_position n) + 120) <$> others) in
      let maxY := Math_max (pos_y (node_position first) + 80)
                           ((λ n, pos_y (node_position n) + 80) <$> others) in
      let mapWidth := or_num (maxX - minX) 100 in
      let mapHeight := or_num (maxY - minY) 100 in
      let scale := Rmin ((MINIMAP_SIZE - 2 * MINIMAP_PADDING) / mapWidth)
                        ((MINIMAP_SIZE - 2 * MINIMAP_PADDING) / mapHeight) in
      let transformedNodes :=
        (λ node, mkMinimapNode node
                   ((pos_x (node_position node) - minX) * scale + MINIMAP_PADDING)
                   ((pos_y (node_position node) - minY) * scale + MINIMAP_PADDING))
          <$> nodeList in
      let transformedConnections :=
        omap (transform_connection transformedNodes scale) connections in
      let viewportX :=
        (- pos_x (vp_pan viewport) / vp_zoom viewport - minX) * scale + MINIMAP_PADDING in
      let viewportY :=
        (- pos_y (vp_pan viewport) / vp_zoom viewport - minY) * scale + MINIMAP_PADDING in
      let viewportWidth := vp_width viewport / vp_zoom viewport * scale in
      let viewportHeight := vp_height viewport / vp_zoom viewport * scale in
      mkMinimapData (mkBounds minX minY maxX maxY) scale
        transformedNodes transformedConnections
        (mkViewportRect
           (Rmax MINIMAP_PADDING
                 (Rmin (MINIMAP_SIZE - MINIMAP_PADDING - viewportWidth) viewportX))
           (Rmax MINIMAP_PADDING
                 (Rmin (MINIMAP_SIZE - MINIMAP_PADDING - viewportHeight) viewportY))
           (Rmin viewportWidth (MINIMAP_SIZE - 2 * MINIMAP_PADDING))
           (Rmin viewportHeight (MINIMAP_SIZE - 2 * MINIMAP_PADDING)))
  end.

(** [handleMinimapPress]: the pan handed to [onViewportChange] for a press
    at ([locationX], [locationY]). *)
Definition handleMinimapPress (data : MinimapData) (viewport : Viewport)
    (locationX locationY : R) : Position :=
  let relativeX := locationX - MINIMAP_PADDING in
  let relativeY := locationY - MINIMAP_PADDING in
  let worldX := relativeX / md_scale data + minX (md_bounds data) in
  let worldY := relativeY / md_scale data + minY (md_bounds data) in
  let newPanX := - (worldX * vp_zoom viewport - vp_width viewport / 2) in
  let newPanY := - (worldY * vp_zoom viewport - vp_height viewport / 2) in
  mkPosition newPanX newPanY.

(** ** The store (src/store/mindMapStore.ts)

    Of the state of the store only [currentMap] is embedded; an action is
    the function from [currentMap] to the [currentMap] that [set]
    leaves, and an exception of the layout service leaves the action
    through [set]. *)

(** [Partial<LayoutOptions>]: a property is absent ([None]) or present,
    and a numeric property that is present holds a number or
    [undefined]. *)
Record PartialLayoutOptions : Type := mkPartialLayoutOptions {
  partial_algorithm : option LayoutAlgorithm;
  partial_spacing : option (option R);
  partial_centerX : option (option R);
  partial_centerY : option (option R);
  partial_maxIterations : option (option R);
  partial_attractionForce : option (option R);
  partial_repulsionForce : option (option R)
}.


(** [{ ...nodes, [k]: node }] and [nodes[k] = node] for a key that is not
    an array index, as the identifiers that [uuidv4] makes: an entry that
    exists is replaced where it is, a new one is enumerated last. *)
Definition dict_put (nodes : NodeDict) (k : string) (node : Node) : NodeDict :=
  if decide (k ∈ nodes.*1)
  then (λ kn, (kn.1, if decide (kn.1 = k) then node else kn.2)) <$> nodes
  else nodes ++ [(k, node)].

(** [delete nodes[k]] *)
Definition dict_delete (nodes : NodeDict) (k : string) : NodeDict :=
  filter (λ kn, kn.1 ≠ k) nodes.

(** The body of [Object.entries(newPositions).forEach(([nodeId, position]) => ...)]. *)
Definition update_position (nodeId : string) (position : Position) (updatedNodes : NodeDict)
    : NodeDict :=
  match dict_get updatedNodes nodeId with
  | Some node => dict_put updatedNodes nodeId (mkNode (node_id node) position)
  | None => updatedNodes
  end.

(** The loop over the entries of [newPositions]; every pass writes under
    a key of its own. *)
Definition update_positions (nodes : NodeDict) (newPositions : Positions) : NodeDict :=
  map_fold update_position nodes newPositions.

Module Store.



Definition deleteNode (currentMap : option MindMap) (nodeId : string) : option MindMap :=
  match currentMap with
  | None => None
  | Some m =>
      let newNodes := dict_delete (map_nodes m) nodeId in
      let newConnections :=
        filter (λ c, conn_from c ≠ nodeId ∧ conn_to c ≠ nodeId) (map_connections m) in
      Some (mkMindMap newNodes newConnections)
  end.



Definition applyLayout (currentMap : option MindMap) (algorithm : LayoutAlgorithm)
    (options : PartialLayoutOptions) : outcome (option MindMap) :=
  match currentMap with
  | None => Returns None
  | Some m =>
      let defaultOptions :=
        mkLayoutOptions
          (default algorithm (partial_algorithm options))
          (default (Some 200) (partial_spacing options))
          (default (Some 0) (partial_centerX options))
          (default (Some 0) (partial_centerY options))
          (default (Some 100) (partial_maxIterations options))
          (default (Some 0.01) (partial_attractionForce options))
          (default (Some 1000) (partial_repulsionForce options)) in
      newPositions ← applyLayout (map_nodes m) (map_connections m) defaultOptions;
      Returns (Some (mkMindMap (update_positions (map_nodes m) newPositions)
                               (map_connections m)))
  end.

Definition centerOnNode (currentMap : option MindMap) (nodeId : string)
    : outcome (option MindMap) :=
  match currentMap with
  | None => Returns None
  | Some m =>
      match dict_get (map_nodes m) nodeId with
      | None => Returns currentMap
      | Some _ =>
          newPositions ← centerOnNode (map_nodes m) nodeId (map_connections m);
          Returns (Some (mkMindMap (update_positions (map_nodes m) newPositions)
                                   (map_connections m)))
      end
  end.

End Store.

(** * Vocabulary of the properties

    Notions in which the properties are stated and proved; none of them
    is part of the program. *)

(** The identifiers of a list of nodes. *)
Definition ids (nodes : list Node) : list string := node_id <$> nodes.

(** Euclidean distance. *)
Definition distance (p q : Position) : R :=
  sqrt ((pos_x p - pos_x q) * (pos_x p - pos_x q) + (pos_y p - pos_y q) * (pos_y p - pos_y q)).

(** The keys of the dictionary of nodes. *)
Definition keys (nodes : NodeDict) : gset string :=
  dom (list_to_map nodes : gmap string Node).




(** The point that [centerOnNode] gives to the focus node. *)
Definition origin : Position := mkPosition 0 0.


(** How often [v] occurs in a list of target identifiers. *)
Definition occ (v : string) (ts : list string) : nat := length (filter (λ t, t = v) ts).

(** [inDegree] after the targets [ts] have been released one by one. *)
Fixpoint decrement_all (inDegree : gmap string Z) (ts : list string) : gmap string Z :=
  match ts with
  | [] => inDegree
  | t :: ts' =>
      match inDegree !! t with
      | Some d => decrement_all (<[t := (d - 1)%Z]> inDegree) ts'
      | None => decrement_all inDegree ts'
      end
  end.

(** The targets whose count reaches 0 while [ts] are released, in the
    order in which they do. *)
Fixpoint zero_hits (inDegree : gmap string Z) (ts : list string) : list string :=
  match ts with
  | [] => []
  | t :: ts' =>
      match inDegree !! t with
      | Some d =>
          (if decide ((d - 1)%Z = 0%Z) then [t] else [])
            ++ zero_hits (<[t := (d - 1)%Z]> inDegree) ts'
      | None => zero_hits inDegree ts'
      end
  end.

(** The identifiers with a positive count. *)
Definition positive_keys (inDegree : gmap string Z) : gset string :=
  dom (filter (λ kv, (0 < kv.2)%Z) inDegree).

(** The targets of the nodes of one level, in the order of release. *)
Definition level_targets (graph : gmap string (list string)) (ns : list Node) : list string :=
  concat ((λ n, default [] (graph !! node_id n)) <$> ns).

(** Options with nothing set. *)
Definition default_options (a : LayoutAlgorithm) : LayoutOptions :=
  mkLayoutOptions a None None None None None None.



(** One node, and two nodes as a list. *)
Definition lone_node : NodeDict := [("a", mkNode "a" origin)].

Definition pair_nodes : list Node := [mkNode "a" origin; mkNode "b" origin].


(** The connections that the hierarchical layout reads. *)
Definition dependencies (connections : list Connection) : list Connection :=
  filter (λ c, conn_type c = dependency) connections.

(** What [graph[u]] holds once all dependencies have been entered. *)
Definition targets_of (deps : list Connection) (u : string) : list string :=
  conn_to <$> filter (λ c, conn_from c = u) deps.

(** The dependencies into [v] whose source is not among [released]. *)
Definition pending (deps : list Connection) (released : gset string) (v : string) : nat :=
  length (filter (λ c, conn_to c = v ∧ conn_from c ∉ released) deps).

(** The identifiers of the nodes of one level. *)
Definition level_ids (level : list (option Node)) : list string :=
  node_id <$> omap (λ n, n) level.

(** Every dependency into a node of a level comes from an earlier level
    or from [released]. *)
Fixpoint layered (deps : list Connection) (released : gset string)
    (levels : list (list (option Node))) : Prop :=
  match levels with
  | [] => True
  | level :: rest =>
      (∀ c, c ∈ deps → conn_to c ∈ level_ids level → conn_from c ∈ released) ∧
      layered deps (released ∪ list_to_set (level_ids level)) rest
  end.

(** [graph] lists the targets of the dependencies entered so far and
    [inDegree] counts them. *)
Definition graph_of (deps : list Connection)
    (st : gmap string (list string) * gmap string Z) : Prop :=
  (∀ u ts, st.1 !! u = Some ts → ts = targets_of deps u) ∧
  (∀ v, default 0%Z (st.2 !! v) = Z.of_nat (pending deps ∅ v)).

(** Both ends of the connection are identifiers of the set [valid]. *)
Definition attached (valid : gset string) (conn : Connection) : Prop :=
  conn_from conn ∈ valid ∧ conn_to conn ∈ valid.

#[global] Instance attached_dec valid conn : Decision (attached valid conn).
Proof. unfold attached. apply _. Defined.





(** A map with one node at the origin. *)
Definition one_node_map : MindMap :=
  mkMindMap [("a", mkNode "a" origin)] [mkConnection "c1" "a" "a" related].

(** A map with a second node far to the right, joined to the first. *)
Definition far_map : MindMap :=
  mkMindMap [("a", mkNode "a" origin); ("b", mkNode "b" (mkPosition 10000 0))]
            [mkConnection "c1" "a" "b" related].


(** The scenario of the description: A is needed by B, and B is related to C. *)
Definition abc_nodes : list Node :=
  [mkNode "a" origin; mkNode "b" origin; mkNode "c" origin].

Definition abc_connections : list Connection :=
  [mkConnection "c1" "a" "b" dependency; mkConnection "c2" "b" "c" related].

Definition abc_positions : Positions :=
  <["b" := mkPosition (0 - INR 1 * 200 / 2 + INR 0 * 200) (0 + INR 1 * 200)]>
    (<["c" := mkPosition (0 - INR 2 * 200 / 2 + INR 1 * 200) (0 + INR 0 * 200)]>
       (<["a" := mkPosition (0 - INR 2 * 200 / 2 + INR 0 * 200) (0 + INR 0 * 200)]> ∅)).

(** The column and the row of the cell with a given index. *)
Definition grid_cell (count index : nat) : nat * nat :=
  ((index mod Nat.sqrt_up count)%nat, (index / Nat.sqrt_up count)%nat).

(** Every node of a level after the first has a dependency from the
    level before it. *)
Fixpoint tight (deps : list Connection) (previous : list string)
    (levels : list (list (option Node))) : Prop :=
  match levels with
  | [] => True
  | level :: rest =>
      (∀ v, v ∈ level_ids level →
         ∃ c, c ∈ deps ∧ conn_to c = v ∧ conn_from c ∈ previous) ∧
      tight deps (level_ids level) rest
  end.

(** [chain deps v k]: a chain of [k] dependencies ends at [v]. *)
Inductive chain (deps : list Connection) : string → nat → Prop :=
| chain_start v : chain deps v 0
| chain_step c k :
    c ∈ deps → chain deps (conn_from c) k → chain deps (conn_to c) (S k).

(** Every dependency has both ends among the nodes. *)
Definition dependencies_attached (nodes : list Node) (connections : list Connection) : Prop :=
  ∀ c, c ∈ dependencies connections →
       conn_from c ∈ ids nodes ∧ conn_to c ∈ ids nodes.










(** The screen widened by the culling margin: 200 world units on every
    side and the footprint of a node, 120 by 80, to the left and above. *)
Definition near_screen (W H zoom : R) (q : Position) : Prop :=
  - (120 + 200) * zoom <= pos_x q <= W + 200 * zoom ∧
  - (80 + 200) * zoom <= pos_y q <= H + 200 * zoom.

Definition two_node_map : MindMap :=
  mkMindMap [("a", mkNode "a" (mkPosition 0 0)); ("b", mkNode "b" (mkPosition 100 50))]
            [mkConnection "c1" "a" "b" dependency].

(** The viewport after a press: [onViewportChange] is [setPan]. *)
Definition pressed (nodes : NodeDict) (connections : list Connection)
    (viewport : Viewport) (locationX locationY : R) : Viewport :=
  mkViewport
    (handleMinimapPress (minimapData nodes connections viewport) viewport locationX locationY)
    (vp_zoom viewport) (vp_width viewport) (vp_height viewport).

(** No options, as [EditorScreen] calls [applyLayout]. *)
Definition no_options : PartialLayoutOptions :=
  mkPartialLayoutOptions None None None None None None None.

(** Every connection of the map joins two keys of its dictionary. *)
Definition well_connected (m : MindMap) : Prop :=
  ∀ c, c ∈ map_connections m → attached (keys (map_nodes m)) c.



(** A window of 400 by 800 at zoom 1, and the same window at zoom 10. *)
Definition window_1 : Viewport := mkViewport origin 1 400 800.

Definition window_10 : Viewport := mkViewport origin 10 400 800.


(** The far map without its second node. *)
Definition near_map : MindMap :=
  mkMindMap (dict_delete (map_nodes far_map) "b")
            (filter (λ c, conn_from c ≠ "b" ∧ conn_to c ≠ "b") (map_connections far_map)).

(** * Properties *)

(** ** Canvas *)

Lemma dict_get_Some (nodes : NodeDict) k n :
  NoDup nodes.*1 → dict_get nodes k = Some n ↔ (k, n) ∈ nodes.
Proof.
  intros Hnd. unfold dict_get. symmetry. by apply elem_of_list_to_map.
Qed.

Lemma Object_values_elem (nodes : NodeDict) n :
  n ∈ Object_values nodes ↔ ∃ k, (k, n) ∈ nodes.
Proof.
  unfold Object_values. rewrite list_elem_of_fmap. split.
  - intros [[k n'] [-> Hin]]. by exists k.
  - intros [k Hin]. by exists (k, n).
Qed.

Lemma keyed_by_id_get (nodes : NodeDict) n :
  keyed_by_id nodes → n ∈ Object_values nodes → dict_get nodes (node_id n) = Some n.
Proof.
  intros [Hnd Hkey] [k Hin]%Object_values_elem.
  apply dict_get_Some; [done |]. by rewrite (Hkey k n Hin).
Qed.

Lemma keyed_by_id_id (nodes : NodeDict) k n :
  keyed_by_id nodes → dict_get nodes k = Some n → node_id n = k.
Proof.
  intros [Hnd Hkey] Hget. apply Hkey. by apply dict_get_Some.
Qed.

Section CanvasProperties.
Variables SCREEN_WIDTH SCREEN_HEIGHT : R.
Hypothesis width_nonneg : 0 <= SCREEN_WIDTH.
Hypothesis height_nonneg : 0 <= SCREEN_HEIGHT.

Lemma viewport_nonempty pan zoom :
  0 < zoom →
  rect_left (viewport SCREEN_WIDTH SCREEN_HEIGHT pan zoom)
    <= rect_right (viewport SCREEN_WIDTH SCREEN_HEIGHT pan zoom) ∧
  rect_top (viewport SCREEN_WIDTH SCREEN_HEIGHT pan zoom)
    <= rect_bottom (viewport SCREEN_WIDTH SCREEN_HEIGHT pan zoom).
Proof.
  intros Hz. unfold viewport, buffer. simpl.
  assert (Hw : 0 <= SCREEN_WIDTH / zoom).
  { apply Rmult_le_pos; [done |]. left. by apply Rinv_0_lt_compat. }
  assert (Hh : 0 <= SCREEN_HEIGHT / zoom).
  { apply Rmult_le_pos; [done |]. left. by apply Rinv_0_lt_compat. }
  replace ((- pos_x pan + SCREEN_WIDTH) / zoom)
    with (- pos_x pan / zoom + SCREEN_WIDTH / zoom) by (field; lra).
  replace ((- pos_y pan + SCREEN_HEIGHT) / zoom)
    with (- pos_y pan / zoom + SCREEN_HEIGHT / zoom) by (field; lra).
  lra.
Qed.

(** The test of [visibleNodes] is the overlap test of two closed,
    non-empty boxes. *)
Lemma node_in_view_intersects pan zoom node :
  0 < zoom →
  node_in_view SCREEN_WIDTH SCREEN_HEIGHT pan zoom node ↔
  intersects (node_box node) (viewport SCREEN_WIDTH SCREEN_HEIGHT pan zoom).
Proof.
  intros Hz. destruct (viewport_nonempty pan zoom Hz) as [Hlr Htb].
  unfold node_in_view, intersects, in_rect, node_box, viewport in *.
  simpl in *.
  set (vl := - pos_x pan / zoom - buffer) in *.
  set (vt := - pos_y pan / zoom - buffer) in *.
  set (vr := (- pos_x pan + SCREEN_WIDTH) / zoom + buffer) in *.
  set (vb := (- pos_y pan + SCREEN_HEIGHT) / zoom + buffer) in *.
  set (nx := pos_x (node_position node)).
  set (ny := pos_y (node_position node)).
  split.
  - intros Hin.
    exists (mkPosition (Rmax nx vl) (Rmax ny vt)). simpl.
    assert (¬ nx + 120 < vl) by tauto.
    assert (¬ nx > vr) by tauto.
    assert (¬ ny + 80 < vt) by tauto.
    assert (¬ ny > vb) by tauto.
    unfold Rmax. repeat destruct (Rle_dec _ _); lra.
  - intros [[qx qy] Hq]. simpl in Hq. lra.
Qed.

(** C5: with [zoom > 0], a node of the map is among [visibleNodes]
    exactly when its box, from its position to its position plus
    (120, 80), meets the closed rectangle with
    left = -pan.x/zoom - 200, top = -pan.y/zoom - 200,
    right = (-pan.x + screenWidth)/zoom + 200 and
    bottom = (-pan.y + screenHeight)/zoom + 200; so no node whose box
    reaches into that rectangle is left out. *)
Theorem visibleNodes_iff_box_meets_viewport (m : MindMap) pan zoom node :
  0 < zoom →
  viewport SCREEN_WIDTH SCREEN_HEIGHT pan zoom
    = mkRect (- pos_x pan / zoom - 200) (- pos_y pan / zoom - 200)
             ((- pos_x pan + SCREEN_WIDTH) / zoom + 200)
             ((- pos_y pan + SCREEN_HEIGHT) / zoom + 200) ∧
  (node ∈ visibleNodes SCREEN_WIDTH SCREEN_HEIGHT (Some m) pan zoom ↔
   node ∈ Object_values (map_nodes m) ∧
   intersects (node_box node) (viewport SCREEN_WIDTH SCREEN_HEIGHT pan zoom)).
Proof.
  intros Hz. split; [reflexivity |].
  unfold visibleNodes. rewrite list_elem_of_filter.
  rewrite (node_in_view_intersects pan zoom node Hz). tauto.
Qed.

(** What [visibleNodes] returns are nodes of the map. *)
Lemma visibleNodes_of_map (m : MindMap) pan zoom n :
  n ∈ visibleNodes SCREEN_WIDTH SCREEN_HEIGHT (Some m) pan zoom →
  n ∈ Object_values (map_nodes m).
Proof. unfold visibleNodes. by intros [_ ?]%list_elem_of_filter. Qed.
End CanvasProperties.

(** C9: in a map whose nodes are filed under their identifiers, and for
    any list of visible nodes taken from the map, a connection of the map
    is among [visibleConnections] exactly when the node at its [from] end
    and the node at its [to] end are both visible; with only one of them
    visible it is left out. *)
Theorem visibleConnections_iff_both_ends_visible (m : MindMap) (visible : list Node)
    (conn : Connection) :
  keyed_by_id (map_nodes m) →
  (∀ n, n ∈ visible → n ∈ Object_values (map_nodes m)) →
  let end_visible k := ∃ n, dict_get (map_nodes m) k = Some n ∧ n ∈ visible in
  (conn ∈ visibleConnections (Some m) visible ↔
   conn ∈ map_connections m ∧ end_visible (conn_from conn) ∧ end_visible (conn_to conn)) ∧
  (¬ (end_visible (conn_from conn) ∧ end_visible (conn_to conn)) →
   conn ∉ visibleConnections (Some m) visible).
Proof.
  intros Hkey Hsub end_visible.
  assert (Hends : ∀ k, end_visible k ↔
            is_Some (dict_get (map_nodes m) k) ∧ Exists (λ n, node_id n = k) visible).
  { intros k. unfold end_visible. rewrite Exists_exists. split.
    - intros (n & Hget & Hvis). split; [by exists n |].
      exists n. split; [done |]. by apply (keyed_by_id_id (map_nodes m)).
    - intros (_ & n & Hvis & Hid). exists n. split; [| done].
      subst k. apply keyed_by_id_get; [done |]. by apply Hsub. }
  assert (Hiff : conn ∈ visibleConnections (Some m) visible ↔
            conn ∈ map_connections m ∧
            end_visible (conn_from conn) ∧ end_visible (conn_to conn)).
  { unfold visibleConnections. rewrite list_elem_of_filter.
    unfold connection_in_view. rewrite !Hends. tauto. }
  split; [exact Hiff |]. intros Hnot Hin. apply Hiff in Hin. tauto.
Qed.

(** C6: for every point, pan offset and [zoom > 0],
    [screenToWorld (worldToScreen p pan zoom) pan zoom = p], where
    [worldToScreen] is [p * zoom + pan] and [screenToWorld] is
    [(q - pan) / zoom], over exact arithmetic. *)
Theorem screenToWorld_worldToScreen (p pan : Position) (zoom : R) :
  0 < zoom →
  worldToScreen p pan zoom
    = mkPosition (pos_x p * zoom + pos_x pan) (pos_y p * zoom + pos_y pan) ∧
  (∀ q, screenToWorld q pan zoom
          = mkPosition ((pos_x q - pos_x pan) / zoom) ((pos_y q - pos_y pan) / zoom)) ∧
  screenToWorld (worldToScreen p pan zoom) pan zoom = p.
Proof.
  intros Hz. split; [reflexivity |]. split; [reflexivity |].
  destruct p as [x y]. unfold screenToWorld, worldToScreen. simpl.
  f_equal; field; lra.
Qed.

(** ** Numbers *)

Lemma or_default_0 d : or_default (Some 0) d = or_default None d.
Proof. unfold or_default. by rewrite decide_True. Qed.

Lemma or_default_nonzero r d : r ≠ 0 → or_default (Some r) d = r.
Proof. intros Hr. unfold or_default. by rewrite decide_False. Qed.

Lemma ceilZ_bounds (r : R) : IZR (ceilZ r) - 1 < r <= IZR (ceilZ r).
Proof.
  unfold ceilZ. rewrite minus_IZR.
  destruct (archimed (- r)) as [Hup Hlow]. lra.
Qed.

Lemma ceilZ_IZR (z : Z) : ceilZ (IZR z) = z.
Proof.
  pose proof (ceilZ_bounds (IZR z)) as [Hlo Hhi].
  apply le_IZR in Hhi.
  assert (Hlt : (ceilZ (IZR z) - 1 < z)%Z).
  { apply lt_IZR. by rewrite minus_IZR. }
  lia.
Qed.


Lemma loop_count_IZR (z : Z) : loop_count (IZR z) = Z.to_nat z.
Proof. unfold loop_count. by rewrite ceilZ_IZR. Qed.


(** ** Every numeric option: 0 is read as omitted *)

(** C10: for each of [spacing], [maxIterations], [attractionForce],
    [repulsionForce], [centerX] and [centerY], [applyLayout] with the
    option set to 0 gives what it gives with the option omitted; the
    circular layout with [spacing = 0] uses the radius 200 and the
    force-directed layout with [maxIterations = 0] runs 100 passes. *)
Theorem zero_option_is_omitted_option
    (nodes : NodeDict) (connections : list Connection) (a : LayoutAlgorithm)
    (s cx cy mi af rf : option R) :
  applyLayout nodes connections (mkLayoutOptions a (Some 0) cx cy mi af rf)
    = applyLayout nodes connections (mkLayoutOptions a None cx cy mi af rf) ∧
  applyLayout nodes connections (mkLayoutOptions a s (Some 0) cy mi af rf)
    = applyLayout nodes connections (mkLayoutOptions a s None cy mi af rf) ∧
  applyLayout nodes connections (mkLayoutOptions a s cx (Some 0) mi af rf)
    = applyLayout nodes connections (mkLayoutOptions a s cx None mi af rf) ∧
  applyLayout nodes connections (mkLayoutOptions a s cx cy (Some 0) af rf)
    = applyLayout nodes connections (mkLayoutOptions a s cx cy None af rf) ∧
  applyLayout nodes connections (mkLayoutOptions a s cx cy mi (Some 0) rf)
    = applyLayout nodes connections (mkLayoutOptions a s cx cy mi None rf) ∧
  applyLayout nodes connections (mkLayoutOptions a s cx cy mi af (Some 0))
    = applyLayout nodes connections (mkLayoutOptions a s cx cy mi af None) ∧
  circularLayout (Object_values nodes) (mkLayoutOptions circular (Some 0) cx cy mi af rf)
    = circularLayout (Object_values nodes)
        (mkLayoutOptions circular (Some 200) cx cy mi af rf) ∧
  forceDirectedLayout (Object_values nodes) connections
      (mkLayoutOptions force_directed s cx cy (Some 0) af rf)
    = Nat.iter 100
        (relax (Object_values nodes) connections
               (or_default af 0.01) (or_default rf 1000))
        (seed_positions (Object_values nodes)).
Proof.
  assert (H200 : or_default (Some 200) 200 = or_default None 200).
  { rewrite or_default_nonzero; [done | lra]. }
  assert (H100 : loop_count (or_default None 100) = 100%nat).
  { simpl. by rewrite loop_count_IZR. }
  unfold applyLayout, forceDirectedLayout, hierarchicalLayout, circularLayout, gridLayout.
  cbn [algorithm spacing centerX centerY maxIterations attractionForce repulsionForce].
  rewrite ?or_default_0, ?H200, ?H100. done.
Qed.

(** ** Loops that write one entry per node *)

Section WriteEach.
Context {V : Type} (g : nat → V).

Let write (acc : gmap string V) (node : Node) (index : nat) : gmap string V :=
  <[node_id node := g index]> acc.


Lemma write_each_other nodes i acc k :
  k ∉ ids nodes → forEach_indexed write nodes i acc !! k = acc !! k.
Proof.
  revert i acc. induction nodes as [| n nodes IH]; intros i acc Hk; simpl; [done |].
  apply not_elem_of_cons in Hk as [Hne Hk].
  rewrite IH by done. unfold write. by rewrite lookup_insert_ne.
Qed.

Lemma write_each_at nodes i acc j node :
  NoDup (ids nodes) → nodes !! j = Some node →
  forEach_indexed write nodes i acc !! node_id node = Some (g (i + j)%nat).
Proof.
  revert i acc j. induction nodes as [| n nodes IH]; intros i acc j Hnd Hj; [done |].
  apply NoDup_cons in Hnd as [Hn Hnd]. destruct j as [| j]; simpl in *.
  - injection Hj as ->. rewrite write_each_other by done.
    unfold write. rewrite lookup_insert_eq. by rewrite Nat.add_0_r.
  - rewrite (IH (S i) _ j) by done. f_equal. f_equal. lia.
Qed.

Lemma write_each_from nodes i acc k v :
  forEach_indexed write nodes i acc !! k = Some v →
  acc !! k = Some v ∨ ∃ j node, nodes !! j = Some node ∧ node_id node = k ∧ v = g (i + j)%nat.
Proof.
  revert i acc. induction nodes as [| n nodes IH]; intros i acc Hk; simpl in *; [by left |].
  apply IH in Hk as [Hk | (j & node & Hj & Hid & ->)].
  - unfold write in Hk. rewrite lookup_insert in Hk. case_decide as Hn.
    + right. exists 0%nat, n. simpl. rewrite Nat.add_0_r. naive_solver.
    + by left.
  - right. exists (S j), node. simpl. split; [done |]. split; [done |]. f_equal. lia.
Qed.
End WriteEach.

Lemma elem_of_ids nodes k : k ∈ ids nodes ↔ ∃ n, n ∈ nodes ∧ node_id n = k.
Proof. unfold ids. rewrite list_elem_of_fmap. naive_solver. Qed.

(** ** Circular layout *)

Lemma or_default_center (c : option R) : or_default c 0 = default 0 c.
Proof. destruct c as [r |]; simpl; [| done]. by case_decide. Qed.



(** ** Force-directed layout: the entries are those of the seeding *)

Lemma seed_from_dom count nodes i acc :
  dom (forEach_indexed (seed_node count) nodes i acc) = dom acc ∪ list_to_set (ids nodes).
Proof.
  revert i acc. induction nodes as [| n nodes IH]; intros i acc; simpl.
  - set_solver.
  - rewrite IH. unfold seed_node.
    destruct (acc !! node_id n) as [p |] eqn:Hn.
    + apply (elem_of_dom_2 acc) in Hn. set_solver.
    + rewrite dom_insert_L. set_solver.
Qed.

Lemma seed_positions_dom nodes : dom (seed_positions nodes) = list_to_set (ids nodes).
Proof. unfold seed_positions. rewrite seed_from_dom. set_solver. Qed.

Lemma move_nodes_dom forces nodes positions :
  dom (fold_left (move_node forces) nodes positions) = dom positions.
Proof.
  revert positions. induction nodes as [| n nodes IH]; intros positions; simpl; [done |].
  rewrite IH. unfold move_node. apply dom_alter_L.
Qed.

Lemma relax_dom nodes connections af rf positions :
  dom (relax nodes connections af rf positions) = dom positions.
Proof. unfold relax. apply move_nodes_dom. Qed.

Lemma relax_iter_dom nodes connections af rf count positions :
  dom (Nat.iter count (relax nodes connections af rf) positions) = dom positions.
Proof.
  induction count as [| count IH]; simpl; [done |]. by rewrite relax_dom.
Qed.


(** Every [positions[...]] that [relax] reads is defined. *)
Lemma forceDirectedLayout_reads_defined nodes connections af rf count n :
  n ∈ nodes →
  is_Some (Nat.iter count (relax nodes connections af rf) (seed_positions nodes) !! node_id n).
Proof.
  intros Hn. apply elem_of_dom. rewrite relax_iter_dom, seed_positions_dom.
  apply elem_of_list_to_set, elem_of_ids. by exists n.
Qed.

(** Every [forces[node.id]] that the update of the positions reads is defined. *)
Lemma compute_forces_dom nodes connections positions af rf :
  dom (compute_forces nodes connections positions af rf) = list_to_set (ids nodes).
Proof.
  unfold compute_forces.
  assert (Hgen : ∀ (acc : Positions),
            dom (fold_left
                   (λ forces node,
                      <[node_id node := node_force nodes connections positions af rf node]>
                        forces) nodes acc)
            = dom acc ∪ list_to_set (ids nodes)).
  { generalize (node_force nodes connections positions af rf) as force. intros force.
    induction nodes as [| n ns IH]; intros acc; simpl; [set_solver |].
    rewrite IH, dom_insert_L. set_solver. }
  rewrite Hgen. set_solver.
Qed.



(** ** centerOnNode: the breadth-first placement *)

Lemma elem_of_keys nodes k : k ∈ keys nodes ↔ is_Some (dict_get nodes k).
Proof. unfold keys, dict_get. apply elem_of_dom. Qed.
















(** *** The focus node and its direct neighbours *)






(** ** Hierarchical layout *)

Lemma occ_cons v t ts : occ v (t :: ts) = ((if decide (t = v) then 1 else 0) + occ v ts)%nat.
Proof. unfold occ. rewrite filter_cons. by case_decide. Qed.

Lemma occ_app v ts1 ts2 : occ v (ts1 ++ ts2) = (occ v ts1 + occ v ts2)%nat.
Proof. unfold occ. by rewrite filter_app, length_app. Qed.

Lemma occ_pos v ts : (0 < occ v ts)%nat ↔ v ∈ ts.
Proof.
  induction ts as [| t ts IH].
  - unfold occ. simpl. split; [lia | by intros ?%elem_of_nil].
  - rewrite occ_cons, elem_of_cons. case_decide; [naive_solver lia |].
    rewrite <- IH. naive_solver lia.
Qed.

Lemma release_targets_fold nodes ts inDegree nextLevel :
  fold_left (release_target nodes) ts (inDegree, nextLevel)
  = (decrement_all inDegree ts, nextLevel ++ (find_node nodes <$> zero_hits inDegree ts)).
Proof.
  revert inDegree nextLevel. induction ts as [| t ts IH]; intros inDegree nextLevel; simpl.
  - by rewrite app_nil_r.
  - destruct (inDegree !! t) as [d |] eqn:Ht; [| apply IH].
    case_decide; rewrite IH; [| done].
    by rewrite fmap_app, app_assoc.
Qed.

Lemma decrement_all_lookup inDegree ts v :
  decrement_all inDegree ts !! v = (λ d, (d - Z.of_nat (occ v ts))%Z) <$> inDegree !! v.
Proof.
  revert inDegree. induction ts as [| t ts IH]; intros inDegree; simpl.
  - destruct (inDegree !! v); simpl; [f_equal; unfold occ; simpl; lia | done].
  - rewrite occ_cons. destruct (inDegree !! t) as [d |] eqn:Ht.
    + rewrite IH, lookup_insert. case_decide as Htv.
      * subst v. rewrite Ht. simpl. f_equal. lia.
      * destruct (inDegree !! v); simpl; [f_equal; lia | done].
    + rewrite IH. case_decide as Htv; [subst v; by rewrite Ht |].
      destruct (inDegree !! v); simpl; [f_equal; lia | done].
Qed.

Lemma zero_hits_spec inDegree ts v :
  v ∈ zero_hits inDegree ts ↔
  ∃ d, inDegree !! v = Some d ∧ (0 < d <= Z.of_nat (occ v ts))%Z.
Proof.
  revert inDegree. induction ts as [| t ts IH]; intros inDegree; simpl.
  - split; [by intros ?%elem_of_nil |]. unfold occ. simpl. intros (d & _ & ?). lia.
  - rewrite occ_cons. destruct (inDegree !! t) as [d |] eqn:Ht.
    + rewrite elem_of_app, IH. destruct (decide (t = v)) as [-> | Hne].
      * rewrite lookup_insert_eq, Ht. case_decide.
        -- rewrite list_elem_of_singleton. split.
           ++ intros _. exists d. split; [done | lia].
           ++ by left.
        -- rewrite elem_of_nil. split.
           ++ intros [[] | (d' & [= <-] & ?)]. exists d. split; [done | lia].
           ++ intros (d' & [= <-] & ?). right. exists (d - 1)%Z. split; [done | lia].
      * rewrite lookup_insert_ne by done. case_decide.
        -- rewrite list_elem_of_singleton. naive_solver.
        -- rewrite elem_of_nil. naive_solver.
    + rewrite IH. destruct (decide (t = v)) as [-> | Hne]; [| done].
      rewrite Ht. naive_solver.
Qed.

Lemma zero_hits_NoDup inDegree ts : NoDup (zero_hits inDegree ts).
Proof.
  revert inDegree. induction ts as [| t ts IH]; intros inDegree; simpl; [constructor |].
  destruct (inDegree !! t) as [d |] eqn:Ht; [| apply IH].
  case_decide as Hd; simpl; [| apply IH].
  constructor; [| apply IH].
  rewrite zero_hits_spec, lookup_insert_eq. intros (d' & [= <-] & ?). lia.
Qed.

Lemma elem_of_positive_keys inDegree v :
  v ∈ positive_keys inDegree ↔ ∃ d, inDegree !! v = Some d ∧ (0 < d)%Z.
Proof.
  unfold positive_keys. rewrite elem_of_dom. unfold is_Some.
  setoid_rewrite map_lookup_filter_Some. naive_solver.
Qed.

(** Releasing targets takes every target that reaches 0 out of the
    identifiers with a positive count. *)
Lemma release_uses_positive_keys inDegree ts :
  (size (positive_keys (decrement_all inDegree ts)) + length (zero_hits inDegree ts)
   <= size (positive_keys inDegree))%nat.
Proof.
  set (before := positive_keys inDegree).
  set (after := positive_keys (decrement_all inDegree ts)).
  set (hits := list_to_set (zero_hits inDegree ts) : gset string).
  assert (Hlen : length (zero_hits inDegree ts) = size hits).
  { unfold hits. rewrite size_list_to_set; [done | apply zero_hits_NoDup]. }
  assert (Hdisj : after ## hits).
  { intros v [d [Hv Hd]]%elem_of_positive_keys Hhit%elem_of_list_to_set.
    apply zero_hits_spec in Hhit as (d0 & Hv0 & Hd0).
    rewrite decrement_all_lookup, Hv0 in Hv. simpl in Hv. injection Hv as <-. lia. }
  assert (Hsub : after ∪ hits ⊆ before).
  { intros v [[d [Hv Hd]]%elem_of_positive_keys | Hhit%elem_of_list_to_set]%elem_of_union;
      apply elem_of_positive_keys.
    - rewrite decrement_all_lookup in Hv.
      destruct (inDegree !! v) as [d0 |]; [| done]. simpl in Hv. injection Hv as <-.
      exists d0. split; [done | lia].
    - apply zero_hits_spec in Hhit as (d0 & Hv0 & Hd0). exists d0. split; [done | lia]. }
  apply subseteq_size in Hsub. rewrite (size_union after hits Hdisj) in Hsub. lia.
Qed.

(** One pass over a level that returns has met only nodes with an entry
    in [graph], and has released their targets in order. *)
Lemma release_level_Returns nodes graph currentLevel st st' :
  forEach_throwing (release_node nodes graph) currentLevel st = Returns st' →
  ∃ ns, currentLevel = Some <$> ns ∧
        (∀ n, n ∈ ns → is_Some (graph !! node_id n)) ∧
        st' = fold_left (release_target nodes) (level_targets graph ns) st.
Proof.
  revert st. induction currentLevel as [| [n |] cur IH]; intros st Hrun; simpl in Hrun.
  - injection Hrun as <-. exists []. split; [done |]. split; [| done].
    intros n Hn. by apply elem_of_nil in Hn.
  - destruct (graph !! node_id n) as [ts |] eqn:Hts; simpl in Hrun; [| done].
    apply IH in Hrun as (ns & -> & Hgraph & ->).
    exists (n :: ns). split; [done |]. split.
    + intros n' [-> | Hin]%elem_of_cons; [by rewrite Hts | by apply Hgraph].
    + unfold level_targets. simpl. by rewrite Hts, fold_left_app.
  - done.
Qed.

Lemma release_level_fuel nodes graph currentLevel st :
  forEach_throwing (release_node nodes graph) currentLevel st ≠ OutOfFuel.
Proof.
  revert st. induction currentLevel as [| [n |] cur IH]; intros st; simpl; [done | | done].
  destruct (graph !! node_id n); simpl; [apply IH | done].
Qed.

Lemma find_node_Some nodes k n :
  find_node nodes k = Some n → n ∈ nodes ∧ node_id n = k.
Proof.
  unfold find_node. intros Hfind. apply find_some in Hfind as [Hin Hid].
  split; [by apply list_elem_of_In | by apply bool_decide_eq_true in Hid].
Qed.


(** The loop ends by its own test when there is more fuel than
    identifiers with a positive count. *)
Lemma kahn_levels_fuel fuel nodes graph inDegree currentLevel :
  (size (positive_keys inDegree) < fuel)%nat →
  kahn_levels fuel nodes graph inDegree currentLevel ≠ OutOfFuel.
Proof.
  revert inDegree currentLevel.
  induction fuel as [| fuel IH]; intros inDegree currentLevel Hfuel; [lia |].
  destruct currentLevel as [| c cur]; [done |].
  cbn [kahn_levels].
  destruct (forEach_throwing (release_node nodes graph) (c :: cur) (inDegree, []))
    as [[inDegree' nextLevel] | |] eqn:Hlevel; [| done | by apply release_level_fuel in Hlevel].
  apply release_level_Returns in Hlevel as (ns & _ & _ & Hfold).
  rewrite release_targets_fold in Hfold. injection Hfold as -> ->.
  pose proof (release_uses_positive_keys inDegree (level_targets graph ns)) as Hsize.
  cbn [mbind outcome_bind].
  destruct (zero_hits inDegree (level_targets graph ns)) as [| h hits] eqn:Hhits.
  - destruct fuel; done.
  - simpl in Hsize.
    specialize (IH (decrement_all inDegree (level_targets graph ns))
                   ([] ++ (find_node nodes <$> h :: hits))).
    destruct (kahn_levels fuel nodes graph _ _); [done | done |].
    exfalso. apply IH; [lia | done].
Qed.

Lemma positive_keys_size inDegree : (size (positive_keys inDegree) <= size inDegree)%nat.
Proof.
  unfold positive_keys. rewrite size_dom. apply map_subseteq_size, map_filter_subseteq.
Qed.


(** Where an entry of the mapping built from the levels comes from. *)
Lemma place_level_step spacing centerY level levelIndex startX j
    (acc : outcome Positions) positions' :
  forEach_indexed
    (λ (acc : outcome Positions) (node : option Node) (nodeIndex : nat),
       positions ← acc;
       match node with
       | Some n =>
           Returns (<[node_id n := mkPosition (startX + INR nodeIndex * spacing)
                                              (centerY + INR levelIndex * spacing)]> positions)
       | None => Throws
       end)
    level j acc = Returns positions' →
  ∃ positions, acc = Returns positions ∧
    ∀ k p, positions' !! k = Some p →
      positions !! k = Some p ∨
      ∃ n, Some n ∈ level ∧ node_id n = k ∧ pos_y p = centerY + INR levelIndex * spacing.
Proof.
  revert j acc. induction level as [| node level IH]; intros j acc Hrun; simpl in Hrun.
  - exists positions'. split; [done |]. by left.
  - apply IH in Hrun as (positions1 & Hstep & Hfrom).
    destruct acc as [positions | |]; simpl in Hstep; [| done | done].
    destruct node as [n |]; [| done]. injection Hstep as <-.
    exists positions. split; [done |].
    intros k p Hk. destruct (Hfrom k p Hk) as [Hin | (n' & Hn' & Hid & Hy)].
    + rewrite lookup_insert in Hin. case_decide as Hkey.
      * injection Hin as <-. right. exists n. simpl. split; [by left | done].
      * by left.
    + right. exists n'. split; [by right | done].
Qed.

Lemma place_level_from spacing centerX centerY positions level levelIndex positions' :
  place_level spacing centerX centerY positions level levelIndex = Returns positions' →
  ∀ k p, positions' !! k = Some p →
    positions !! k = Some p ∨
    ∃ n, Some n ∈ level ∧ node_id n = k ∧ pos_y p = centerY + INR levelIndex * spacing.
Proof.
  unfold place_level. intros Hrun.
  apply place_level_step in Hrun as (positions0 & [= <-] & Hfrom). exact Hfrom.
Qed.

Lemma place_levels_step spacing centerX centerY levels i (acc : outcome Positions) positions' :
  forEach_indexed
    (λ (acc : outcome Positions) (levelNodes : list (option Node)) (levelIndex : nat),
       positions ← acc;
       place_level spacing centerX centerY positions levelNodes levelIndex)
    levels i acc = Returns positions' →
  ∃ positions, acc = Returns positions ∧
    ∀ k p, positions' !! k = Some p →
      positions !! k = Some p ∨
      ∃ j level n, levels !! j = Some level ∧ Some n ∈ level ∧ node_id n = k ∧
                   pos_y p = centerY + INR (i + j) * spacing.
Proof.
  revert i acc. induction levels as [| level levels IH]; intros i acc Hrun; simpl in Hrun.
  - exists positions'. split; [done |]. by left.
  - apply IH in Hrun as (positions1 & Hstep & Hfrom).
    destruct acc as [positions | |]; simpl in Hstep; [| done | done].
    exists positions. split; [done |].
    intros k p Hk. destruct (Hfrom k p Hk) as [Hin | (j & l & n & Hj & Hn & Hid & Hy)].
    + destruct (place_level_from _ _ _ _ _ _ _ Hstep k p Hin) as [? | (n & Hn & Hid & Hy)];
        [by left |].
      right. exists 0%nat, level, n. by rewrite Nat.add_0_r.
    + right. exists (S j), l, n. simpl. replace (i + S j)%nat with (S i + j)%nat by lia.
      done.
Qed.

Lemma place_levels_from spacing centerX centerY levels positions :
  place_levels spacing centerX centerY levels = Returns positions →
  ∀ k p, positions !! k = Some p →
    ∃ j level n, levels !! j = Some level ∧ Some n ∈ level ∧ node_id n = k ∧
                 pos_y p = centerY + INR j * spacing.
Proof.
  unfold place_levels. intros Hrun k p Hk.
  apply place_levels_step in Hrun as (positions0 & [= <-] & Hfrom).
  destruct (Hfrom k p Hk) as [Hempty | Hlevel]; [done | exact Hlevel].
Qed.






(** ** The entries of a returned mapping *)



(** ** Connections to an identifier that is not a node *)

(** C2 fails in the hierarchical layout: a dependency whose [from] is not
    a node makes [graph[conn.from].push] throw, and a dependency whose
    [to] is not a node makes the loop read [node.id] of [undefined];
    without the connection the layout returns. *)
Theorem hierarchical_throws_on_dangling_dependency :
  applyLayout lone_node [mkConnection "c1" "ghost" "a" dependency]
    (default_options hierarchical) = Throws ∧
  applyLayout lone_node [mkConnection "c1" "a" "ghost" dependency]
    (default_options hierarchical) = Throws ∧
  applyLayout lone_node [] (default_options hierarchical)
    = Returns {["a" := mkPosition (-100) 0]}.
Proof.
  split; [by vm_compute |]. split; [by vm_compute |].
  assert (Hrun : applyLayout lone_node [] (default_options hierarchical)
            = Returns {["a" := mkPosition (0 - INR 1 * 200 / 2 + INR 0 * 200)
                                          (0 + INR 0 * 200)]})
    by (by vm_compute).
  rewrite Hrun. do 3 f_equal; simpl; lra.
Qed.

(** ** Force-directed layout: seeding and the number of passes *)




(** *** Two nodes and no connection *)







(** *** Dependencies and layers *)

Section Counting.
Context {A : Type}.
Implicit Types (P Q U : A → Prop) (l : list A).

Lemma filter_length_split P Q U
    `{!∀ x, Decision (P x)} `{!∀ x, Decision (Q x)} `{!∀ x, Decision (U x)} l :
  (∀ x, U x ↔ P x ∨ Q x) → (∀ x, P x → Q x → False) →
  length (filter U l) = (length (filter P l) + length (filter Q l))%nat.
Proof.
  intros Hsplit Hdisj. induction l as [| a l IH]; [done |].
  rewrite !filter_cons.
  destruct (decide (U a)) as [Hu | Hu], (decide (P a)) as [Hp | Hp],
    (decide (Q a)) as [Hq | Hq]; simpl; rewrite ?IH; try lia.
  - exfalso. by eapply Hdisj.
  - apply Hsplit in Hu. tauto.
  - exfalso. apply Hu, Hsplit. tauto.
  - exfalso. apply Hu, Hsplit. tauto.
  - exfalso. apply Hu, Hsplit. tauto.
Qed.

Lemma filter_length_0 P `{!∀ x, Decision (P x)} l :
  length (filter P l) = 0%nat ↔ ∀ x, x ∈ l → ¬ P x.
Proof.
  induction l as [| a l IH].
  - split; [| done]. intros _ x Hx. by apply elem_of_nil in Hx.
  - rewrite filter_cons. destruct (decide (P a)) as [Hp | Hp]; simpl.
    + split; [lia |]. intros Hall. exfalso. apply (Hall a); [by left | done].
    + rewrite IH. split.
      * intros Hall x [-> | Hx]%elem_of_cons; auto.
      * intros Hall x Hx. apply Hall. by right.
Qed.

Lemma filter_length_ext P Q `{!∀ x, Decision (P x)} `{!∀ x, Decision (Q x)} l :
  (∀ x, P x ↔ Q x) → length (filter P l) = length (filter Q l).
Proof.
  intros Hext. induction l as [| a l IH]; [done |].
  rewrite !filter_cons.
  destruct (decide (P a)) as [Hp | Hp], (decide (Q a)) as [Hq | Hq]; simpl;
    rewrite ?IH; try done; exfalso; apply Hext in Hp || apply Hext in Hq; tauto.
Qed.
End Counting.

Lemma occ_targets_of deps u v :
  occ v (targets_of deps u)
  = length (filter (λ c, conn_to c = v ∧ conn_from c = u) deps).
Proof.
  unfold occ, targets_of. induction deps as [| c deps IH]; [done |].
  rewrite !filter_cons.
  destruct (decide (conn_from c = u)) as [Hu | Hu].
  - rewrite fmap_cons, filter_cons.
    destruct (decide (conn_to c = v)) as [Hv | Hv].
    + rewrite decide_True by done. simpl. by rewrite IH.
    + rewrite decide_False by tauto. done.
  - rewrite decide_False by tauto. done.
Qed.

(** Releasing the targets of the sources [us], each once, takes from the
    count of [v] the dependencies that reach [v] from [us]. *)
Lemma occ_level_targets deps us v :
  NoDup us →
  occ v (concat (targets_of deps <$> us))
  = length (filter (λ c, conn_to c = v ∧ conn_from c ∈ us) deps).
Proof.
  induction us as [| u us IH]; intros Hnd.
  - symmetry. apply filter_length_0. intros c _ [_ Hin]. by apply elem_of_nil in Hin.
  - apply NoDup_cons in Hnd as [Hu Hnd].
    change (concat (targets_of deps <$> u :: us))
      with (targets_of deps u ++ concat (targets_of deps <$> us)).
    rewrite occ_app, occ_targets_of, IH by done. symmetry.
    apply filter_length_split.
    + intros c. rewrite elem_of_cons. naive_solver.
    + intros c [_ ->] [_ Hin]. done.
Qed.

Lemma pending_split deps released us v :
  (∀ u, u ∈ us → u ∉ released) →
  pending deps released v
  = (pending deps (released ∪ list_to_set us) v
     + length (filter (λ c, conn_to c = v ∧ conn_from c ∈ us) deps))%nat.
Proof.
  intros Hdisj. unfold pending. apply filter_length_split.
  - intros c. rewrite not_elem_of_union, elem_of_list_to_set.
    destruct (decide (conn_from c ∈ us)); naive_solver.
  - intros c [_ Hout] [_ Hin]. apply Hout. set_solver.
Qed.

Lemma pending_0 deps released v :
  pending deps released v = 0%nat ↔ ∀ c, c ∈ deps → conn_to c = v → conn_from c ∈ released.
Proof.
  unfold pending. rewrite filter_length_0. split.
  - intros Hall c Hc Hv. destruct (decide (conn_from c ∈ released)); [done |].
    exfalso. by apply (Hall c).
  - intros Hall c Hc [Hv Hout]. apply Hout. by apply Hall.
Qed.

Lemma init_graph_spec nodes : graph_of [] (init_graph nodes).
Proof.
  unfold init_graph.
  assert (Hgen : ∀ st : gmap string (list string) * gmap string Z,
            graph_of [] st →
            graph_of [] (fold_left (λ '(graph, inDegree) node,
                           (<[node_id node := []]> graph, <[node_id node := 0%Z]> inDegree))
                         nodes st)).
  { induction nodes as [| n nodes IH]; intros [graph inDegree] Hst; simpl; [done |].
    apply IH. destruct Hst as [Hg Hd]. split; simpl in *.
    - intros u ts. rewrite lookup_insert. case_decide; [by intros [= <-] | apply Hg].
    - intros v. rewrite lookup_insert. case_decide; [done | apply Hd]. }
  apply Hgen. split; simpl.
  - intros u ts. by rewrite lookup_empty.
  - intros v. by rewrite lookup_empty.
Qed.

Lemma dependencies_snoc pre c :
  dependencies (pre ++ [c])
  = dependencies pre ++ (if decide (conn_type c = dependency) then [c] else []).
Proof.
  unfold dependencies. by rewrite filter_app.
Qed.

Lemma add_dependency_spec pre c st st' :
  graph_of (dependencies pre) st →
  add_dependency st c = Returns st' →
  graph_of (dependencies (pre ++ [c])) st'.
Proof.
  destruct st as [graph inDegree]. intros [Hg Hd]. unfold add_dependency.
  rewrite dependencies_snoc. simpl in *.
  destruct (decide (conn_type c = dependency)) as [Hdep | Hdep].
  - destruct (graph !! conn_from c) as [targets |] eqn:Hfrom; [| done].
    intros [= <-]. split; simpl.
    + intros u ts. unfold targets_of. rewrite filter_app, fmap_app, filter_cons.
      rewrite lookup_insert. case_decide as Hu.
      * subst u. intros [= <-]. simpl. f_equal. by apply Hg.
      * intros Hts. simpl. rewrite app_nil_r. by apply Hg.
    + intros v. unfold pending. rewrite filter_app, length_app, filter_cons.
      rewrite lookup_insert. case_decide as Hv.
      * subst v. rewrite decide_True by set_solver. simpl.
        rewrite Hd. unfold pending. lia.
      * rewrite decide_False by tauto. simpl. rewrite Hd. unfold pending. lia.
  - intros [= <-]. rewrite app_nil_r. by split.
Qed.

Lemma build_graph_spec nodes connections st :
  build_graph nodes connections = Returns st → graph_of (dependencies connections) st.
Proof.
  unfold build_graph.
  assert (Hgen : ∀ pre rest st0,
            graph_of (dependencies pre) st0 →
            forEach_throwing add_dependency rest st0 = Returns st →
            graph_of (dependencies (pre ++ rest)) st).
  { intros pre rest. revert pre. induction rest as [| c rest IH]; intros pre st0 Hst0 Hrun.
    - injection Hrun as <-. by rewrite app_nil_r.
    - simpl in Hrun. destruct (add_dependency st0 c) as [st1 | |] eqn:Hstep; [| done | done].
      simpl in Hrun. replace (pre ++ c :: rest) with ((pre ++ [c]) ++ rest)
        by (by rewrite <- app_assoc).
      eapply IH; [| exact Hrun]. by eapply add_dependency_spec. }
  apply (Hgen [] connections). apply init_graph_spec.
Qed.

(** The [graph] of the layout has an entry for each node, and nothing else. *)
Lemma build_graph_keys nodes connections graph inDegree :
  build_graph nodes connections = Returns (graph, inDegree) →
  ∀ c, c ∈ dependencies connections → is_Some (graph !! conn_from c).
Proof.
  unfold build_graph.
  assert (Hgen : ∀ rest (st0 st : gmap string (list string) * gmap string Z),
            forEach_throwing add_dependency rest st0 = Returns st →
            (∀ u, is_Some (st0.1 !! u) → is_Some (st.1 !! u)) ∧
            ∀ c, c ∈ dependencies rest → is_Some (st.1 !! conn_from c)).
  { induction rest as [| c rest IH]; intros st0 st Hrun; simpl in Hrun.
    - injection Hrun as <-. split; [done |]. intros c Hc. by apply elem_of_nil in Hc.
    - destruct (add_dependency st0 c) as [st1 | |] eqn:Hstep; [| done | done].
      simpl in Hrun. destruct (IH _ _ Hrun) as [Hkeep Hdeps].
      destruct st0 as [graph0 inDegree0]. unfold add_dependency in Hstep.
      unfold dependencies. rewrite filter_cons.
      destruct (decide (conn_type c = dependency)) as [Hdep | Hdep].
      + destruct (graph0 !! conn_from c) as [targets |] eqn:Hfrom; [| done].
        injection Hstep as <-. simpl in *. split.
        * intros u Hu. apply Hkeep. rewrite lookup_insert. by case_decide.
        * intros c' [-> | Hc']%elem_of_cons; [| by apply Hdeps].
          apply Hkeep. by rewrite lookup_insert_eq.
      + injection Hstep as <-. split; [done | exact Hdeps]. }
  intros Hrun. by destruct (Hgen _ _ _ Hrun) as [_ Hdeps].
Qed.

Lemma level_ids_Some ns : level_ids (Some <$> ns) = ids ns.
Proof.
  unfold level_ids, ids. induction ns as [| n ns IH]; [done |].
  simpl. f_equal. exact IH.
Qed.

Lemma elem_of_level_ids level k :
  k ∈ level_ids level ↔ ∃ n, Some n ∈ level ∧ node_id n = k.
Proof.
  unfold level_ids. rewrite list_elem_of_fmap. setoid_rewrite list_elem_of_omap.
  split.
  - intros (n & -> & o & Ho & Hn). simpl in Hn. subst o. by exists n.
  - intros (n & Hn & <-). exists n. split; [done |]. by exists (Some n).
Qed.

Lemma found_nodes_ids nodes hits ns :
  find_node nodes <$> hits = Some <$> ns → ids ns = hits.
Proof.
  revert ns. induction hits as [| h hits IH]; intros [| n ns] Heq; try done.
  simpl in Heq. injection Heq as Hfind Hrest.
  apply find_node_Some in Hfind as [_ Hid].
  unfold ids in *. simpl. rewrite Hid. f_equal. by apply IH.
Qed.

Lemma kahn_levels_head fuel nodes graph inDegree currentLevel levels :
  kahn_levels fuel nodes graph inDegree currentLevel = Returns levels →
  ∃ ns, currentLevel = Some <$> ns.
Proof.
  destruct currentLevel as [| c cur]; [by exists [] |].
  destruct fuel as [| fuel]; [done |]. cbn [kahn_levels].
  destruct (forEach_throwing (release_node nodes graph) (c :: cur) (inDegree, []))
    as [st | |] eqn:Hlevel; [| done | done].
  apply release_level_Returns in Hlevel as (ns & Hns & _). intros _. by exists ns.
Qed.

Section Layers.
Variables (nodes : list Node) (graph : gmap string (list string))
          (deps : list Connection).
Hypothesis graph_targets : ∀ u ts, graph !! u = Some ts → ts = targets_of deps u.

Lemma level_targets_deps ns :
  (∀ n, n ∈ ns → is_Some (graph !! node_id n)) →
  level_targets graph ns = concat (targets_of deps <$> ids ns).
Proof.
  unfold level_targets, ids. induction ns as [| n ns IH]; intros Hall; [done |].
  rewrite !fmap_cons. cbn [concat].
  rewrite IH by (intros n' Hn'; apply Hall; by right). f_equal.
  destruct (Hall n) as [ts Hts]; [by left |]. rewrite Hts. simpl.
  by apply graph_targets.
Qed.

(** The loop invariant of the layering: [inDegree] counts the
    dependencies whose source has not been released, and a node is put
    in a level only when none is left. *)
Lemma kahn_levels_layered fuel inDegree released ns levels :
  NoDup (ids ns) →
  (∀ u, u ∈ ids ns → u ∉ released) →
  (∀ v d, inDegree !! v = Some d → d = Z.of_nat (pending deps released v)) →
  (∀ w, w ∈ released ∨ w ∈ ids ns → pending deps released w = 0%nat) →
  kahn_levels fuel nodes graph inDegree (Some <$> ns) = Returns levels →
  layered deps released levels ∧
  NoDup (concat (level_ids <$> levels)) ∧
  (∀ w, w ∈ concat (level_ids <$> levels) → w ∉ released).
Proof.
  revert inDegree released ns levels.
  induction fuel as [| fuel IH]; intros inDegree released ns levels Hnd Hdisj Hcount Hzero Hrun.
  { destruct ns; [| done]. injection Hrun as <-. simpl.
    split; [done |]. split; [constructor |]. intros w Hw. by apply elem_of_nil in Hw. }
  destruct ns as [| n0 ns0] eqn:Hns.
  { injection Hrun as <-. simpl.
    split; [done |]. split; [constructor |]. intros w Hw. by apply elem_of_nil in Hw. }
  rewrite <- Hns in *. assert (Hcons : ∃ c cur, Some <$> ns = c :: cur).
  { rewrite Hns. by eexists _, _. }
  destruct Hcons as (c & cur & Hcur). rewrite Hcur in Hrun. cbn [kahn_levels] in Hrun.
  rewrite <- Hcur in Hrun. clear c cur Hcur.
  destruct (forEach_throwing (release_node nodes graph) (Some <$> ns) (inDegree, []))
    as [[inDegree' nextLevel] | |] eqn:Hlevel; [| done | done].
  cbn [mbind outcome_bind] in Hrun.
  destruct (kahn_levels fuel nodes graph inDegree' nextLevel) as [rest | |] eqn:Hrest;
    [| done | done].
  injection Hrun as <-.
  apply release_level_Returns in Hlevel as (ns' & Heq & Hgraph & Hfold).
  apply (inj (fmap Some)) in Heq. subst ns'.
  rewrite release_targets_fold, level_targets_deps in Hfold by done.
  injection Hfold as -> ->. simpl in Hrest.
  set (ts := concat (targets_of deps <$> ids ns)) in *.
  destruct (kahn_levels_head _ _ _ _ _ _ Hrest) as [ns2 Hns2].
  pose proof (found_nodes_ids _ _ _ Hns2) as Hids2.
  rewrite Hns2 in Hrest.
  set (released' := released ∪ list_to_set (ids ns)).
  assert (Hocc : ∀ v, occ v ts
            = length (filter (λ c, conn_to c = v ∧ conn_from c ∈ ids ns) deps)).
  { intros v. by apply occ_level_targets. }
  assert (Hsplit : ∀ v, pending deps released v = (pending deps released' v + occ v ts)%nat).
  { intros v. rewrite Hocc. by apply pending_split. }
  assert (Hcount' : ∀ v d, decrement_all inDegree ts !! v = Some d →
            d = Z.of_nat (pending deps released' v)).
  { intros v d. rewrite decrement_all_lookup.
    destruct (inDegree !! v) as [d0 |] eqn:Hv; [| done]. simpl. intros [= <-].
    rewrite (Hcount v d0 Hv), Hsplit. lia. }
  assert (Hhit : ∀ w, w ∈ ids ns2 →
            (0 < pending deps released w)%nat ∧ pending deps released' w = 0%nat).
  { intros w. rewrite Hids2, zero_hits_spec. intros (d & Hw & Hd).
    pose proof (Hcount w d Hw) as Hdw. pose proof (Hsplit w). lia. }
  destruct (IH (decrement_all inDegree ts) released' ns2 rest) as (Hlay & Hnd' & Hout);
    [| | done | | done |].
  - rewrite Hids2. apply zero_hits_NoDup.
  - intros u Hu. destruct (Hhit u Hu) as [Hpos _].
    unfold released'. rewrite not_elem_of_union, elem_of_list_to_set.
    split; intros Hin; [rewrite Hzero in Hpos by (by left) | rewrite Hzero in Hpos by (by right)];
      lia.
  - intros w [Hw | Hw]; [| by destruct (Hhit w Hw)].
    assert (pending deps released w = 0%nat) as Hw0.
    { apply Hzero. unfold released' in Hw. rewrite elem_of_union, elem_of_list_to_set in Hw.
      done. }
    pose proof (Hsplit w). lia.
  - cbn [fmap list_fmap concat layered]. rewrite level_ids_Some. fold released'.
    split; [split |]; [| done | split].
    + intros c Hc Hto. apply (pending_0 deps released (conn_to c)); [| done | done].
      apply Hzero. by right.
    + apply NoDup_app. split; [done |]. split; [| done].
      intros w Hw Hw'. apply (Hout w Hw'). unfold released'. set_solver.
    + intros w [Hw | Hw]%elem_of_app; [by apply Hdisj |].
      intros Hin. apply (Hout w Hw). unfold released'. set_solver.
Qed.
End Layers.

Lemma ids_filter_NoDup (P : Node → Prop) `{!∀ n, Decision (P n)} nodes :
  NoDup (ids nodes) → NoDup (ids (filter P nodes)).
Proof.
  unfold ids. induction nodes as [| n nodes IH]; intros Hnd; [constructor |].
  rewrite fmap_cons in Hnd. apply NoDup_cons in Hnd as [Hn Hnd].
  rewrite filter_cons. destruct (decide (P n)); [| by apply IH].
  rewrite fmap_cons. apply NoDup_cons. split; [| by apply IH].
  intros Hin. apply Hn. apply list_elem_of_fmap in Hin as (m & -> & Hm).
  apply list_elem_of_fmap. exists m. split; [done |].
  by apply list_elem_of_filter in Hm as [_ ?].
Qed.

Lemma layered_source deps released levels j level c :
  layered deps released levels →
  levels !! j = Some level → c ∈ deps → conn_to c ∈ level_ids level →
  conn_from c ∈ released ∨
  ∃ j' level', (j' < j)%nat ∧ levels !! j' = Some level' ∧ conn_from c ∈ level_ids level'.
Proof.
  revert released j. induction levels as [| l levels IH]; intros released j Hlay Hj Hc Hto; [done |].
  destruct Hlay as [Hhead Hrest]. destruct j as [| j]; simpl in Hj.
  - injection Hj as ->. left. by apply Hhead.
  - destruct (IH _ _ Hrest Hj Hc Hto) as [Hin | (j' & level' & Hlt & Hj' & Hin)].
    + apply elem_of_union in Hin as [Hin | Hin%elem_of_list_to_set]; [by left |].
      right. exists 0%nat, l. split; [lia | done].
    + right. exists (S j'), level'. split; [lia | done].
Qed.

Lemma NoDup_concat_index {A} (ls : list (list A)) i j l1 l2 x :
  NoDup (concat ls) → ls !! i = Some l1 → ls !! j = Some l2 → x ∈ l1 → x ∈ l2 → i = j.
Proof.
  revert i j. induction ls as [| l ls IH]; intros i j Hnd Hi Hj H1 H2; [done |].
  simpl in Hnd. apply NoDup_app in Hnd as (_ & Hdisj & Hnd).
  assert (Hin : ∀ k l', ls !! k = Some l' → x ∈ l' → x ∈ concat ls).
  { intros k l' Hk Hx. apply list_elem_of_In, in_concat. exists l'.
    split; apply list_elem_of_In; [by eapply list_elem_of_lookup_2 | done]. }
  destruct i as [| i], j as [| j]; simpl in Hi, Hj.
  - done.
  - injection Hi as ->. exfalso. apply (Hdisj x H1). by eapply Hin.
  - injection Hj as ->. exfalso. apply (Hdisj x H2). by eapply Hin.
  - f_equal. by eapply IH.
Qed.

(** C4: in the mapping that the hierarchical layout returns for nodes
    with distinct identifiers and a [spacing] that is positive or
    omitted, the [to] end of every dependency connection with both ends in
    the mapping has a strictly greater y than its [from] end. *)
Theorem hierarchical_dependency_below (nodes : list Node) (connections : list Connection)
    (options : LayoutOptions) (positions : Positions) :
  NoDup (ids nodes) →
  match spacing options with Some s => 0 < s | None => True end →
  hierarchicalLayout nodes connections options = Returns positions →
  ∀ c pf pt,
    c ∈ connections → conn_type c = dependency →
    positions !! conn_from c = Some pf → positions !! conn_to c = Some pt →
    pos_y pf < pos_y pt.
Proof.
  intros Hnd Hspacing Hrun c pf pt Hc Hdep Hfrom Hto.
  assert (Hs : 0 < or_default (spacing options) 200).
  { unfold or_default. destruct (spacing options) as [s |]; [| lra]. case_decide; lra. }
  unfold hierarchicalLayout in Hrun.
  destruct (build_graph nodes connections) as [[graph inDegree] | |] eqn:Hbuild;
    [| done | done].
  cbn [mbind outcome_bind] in Hrun.
  destruct (kahn_levels (kahn_fuel inDegree) nodes graph inDegree _) as [levels | |] eqn:Hlevels;
    [| done | done].
  destruct (build_graph_spec _ _ _ Hbuild) as [Hgraph Hcount]. simpl in Hgraph, Hcount.
  set (deps := dependencies connections) in *.
  assert (Hcd : c ∈ deps) by (by apply list_elem_of_filter).
  cbn [mbind outcome_bind] in Hrun.
  assert (Hlayers : layered deps ∅ levels ∧ NoDup (concat (level_ids <$> levels)) ∧
            ∀ w, w ∈ concat (level_ids <$> levels) → w ∉ (∅ : gset string)).
  { eapply (kahn_levels_layered nodes graph deps Hgraph); [| | | | exact Hlevels].
    - by apply ids_filter_NoDup.
    - intros u _. set_solver.
    - intros v d Hv. specialize (Hcount v). rewrite Hv in Hcount. done.
    - intros w [Hw | Hw]; [set_solver |].
      apply elem_of_ids in Hw as (n & Hn & <-).
      apply list_elem_of_filter in Hn as [Hzero _].
      specialize (Hcount (node_id n)). rewrite Hzero in Hcount. simpl in Hcount. lia. }
  destruct Hlayers as (Hlay & Hnodup & _).
  - destruct (place_levels_from _ _ _ _ _ Hrun _ _ Hto) as (j & level & n & Hj & Hn & Hid & Hy).
    destruct (place_levels_from _ _ _ _ _ Hrun _ _ Hfrom)
      as (j' & level' & n' & Hj' & Hn' & Hid' & Hy').
    assert (Hto_in : conn_to c ∈ level_ids level) by (apply elem_of_level_ids; eauto).
    assert (Hfrom_in : conn_from c ∈ level_ids level') by (apply elem_of_level_ids; eauto).
    destruct (layered_source _ _ _ _ _ _ Hlay Hj Hcd Hto_in)
      as [Hin | (j'' & level'' & Hlt & Hj'' & Hin)]; [set_solver |].
    assert (j'' = j') as ->.
    { eapply (NoDup_concat_index (level_ids <$> levels)); [done | | | exact Hin | exact Hfrom_in].
      - by rewrite list_lookup_fmap, Hj''.
      - by rewrite list_lookup_fmap, Hj'. }
    rewrite Hy, Hy'. apply lt_INR in Hlt. nra.
Qed.

(** ** The layouts that skip a connection without both ends *)













(** ** Grid layout *)

Lemma ceilZ_unique (r : R) (z : Z) : IZR z - 1 < r <= IZR z → ceilZ r = z.
Proof.
  intros [Hlo Hhi]. pose proof (ceilZ_bounds r) as [Hlo' Hhi'].
  assert (Hle : (ceilZ r - 1 < z)%Z) by (apply lt_IZR; rewrite minus_IZR; lra).
  assert (Hge : (z - 1 < ceilZ r)%Z) by (apply lt_IZR; rewrite minus_IZR; lra).
  lia.
Qed.

(** [Nat.sqrt_up] is [Math.ceil(Math.sqrt(n))]. *)
Lemma sqrt_up_is_ceil_sqrt (n : nat) : ceilZ (sqrt (INR n)) = Z.of_nat (Nat.sqrt_up n).
Proof.
  destruct n as [| n].
  - simpl. rewrite sqrt_0. apply (ceilZ_IZR 0).
  - apply ceilZ_unique. rewrite <- INR_IZR_INZ.
    destruct (Nat.sqrt_up_spec (S n)) as [Hlo Hhi]; [lia |].
    set (c := Nat.sqrt_up (S n)) in *.
    assert (Hc : (0 < c)%nat) by (apply Nat.sqrt_up_pos; lia).
    assert (Hpred : INR (Nat.pred c) = INR c - 1).
    { rewrite <- (Nat.succ_pred_pos c Hc) at 2. rewrite S_INR. lra. }
    split.
    + rewrite <- Hpred. apply Rsqr_incrst_0.
      * rewrite Rsqr_sqrt by apply pos_INR. unfold Rsqr. rewrite <- mult_INR.
        apply lt_INR. exact Hlo.
      * apply pos_INR.
      * apply sqrt_pos.
    + apply Rsqr_incr_0.
      * rewrite Rsqr_sqrt by apply pos_INR. unfold Rsqr. rewrite <- mult_INR.
        apply le_INR. exact Hhi.
      * apply sqrt_pos.
      * apply pos_INR.
Qed.

(** [ceil_div] is [Math.ceil(n / cols)]. *)
Lemma ceil_div_is_ceil (n cols : nat) :
  (0 < cols)%nat → ceilZ (INR n / INR cols) = Z.of_nat (ceil_div n cols).
Proof.
  intros Hcols. apply ceilZ_unique. rewrite <- INR_IZR_INZ.
  assert (Hc : 0 < INR cols) by (apply lt_0_INR; lia).
  pose proof (Nat.div_mod_eq n cols) as Hdiv.
  pose proof (Nat.mod_upper_bound n cols ltac:(lia)) as Hmod.
  assert (Hn : INR n = INR cols * INR (n / cols) + INR (n mod cols)).
  { rewrite <- mult_INR, <- plus_INR. by rewrite <- Hdiv. }
  assert (Hm : INR (n mod cols) < INR cols) by (by apply lt_INR).
  assert (Hm0 : 0 <= INR (n mod cols)) by apply pos_INR.
  unfold ceil_div. destruct (n mod cols =? 0)%nat eqn:Hzero.
  - apply Nat.eqb_eq in Hzero. rewrite Hzero in Hn. simpl in Hn.
    replace (INR n / INR cols) with (INR (n / cols)) by (rewrite Hn; field; lra). lra.
  - apply Nat.eqb_neq in Hzero.
    assert (0 < INR (n mod cols)) by (apply lt_0_INR; lia).
    rewrite S_INR.
    replace (INR n / INR cols) with (INR (n / cols) + INR (n mod cols) / INR cols)
      by (rewrite Hn; field; lra).
    assert (0 < INR (n mod cols) / INR cols) by (by apply Rdiv_lt_0_compat).
    assert (INR (n mod cols) / INR cols < 1).
    { apply (Rmult_lt_reg_r (INR cols)); [done |]. field_simplify; lra. }
    lra.
Qed.

Lemma or_default_ne_0 (v : option R) (d : R) : d ≠ 0 → or_default v d ≠ 0.
Proof. intros Hd. unfold or_default. destruct v as [r |]; [| done]. by case_decide. Qed.

Lemma ceil_div_room (n cols : nat) : (0 < cols)%nat → (n <= cols * ceil_div n cols)%nat.
Proof.
  intros Hcols. unfold ceil_div.
  pose proof (Nat.div_mod_eq n cols) as Hdiv.
  pose proof (Nat.mod_upper_bound n cols ltac:(lia)) as Hmod.
  destruct (n mod cols =? 0)%nat eqn:Hzero.
  - apply Nat.eqb_eq in Hzero. lia.
  - lia.
Qed.

Lemma grid_cell_bounds (count index : nat) :
  (index < count)%nat →
  ((grid_cell count index).1 < Nat.sqrt_up count)%nat ∧
  ((grid_cell count index).2 < ceil_div count (Nat.sqrt_up count))%nat.
Proof.
  intros Hindex. unfold grid_cell. simpl.
  assert (Hcols : (0 < Nat.sqrt_up count)%nat) by (apply Nat.sqrt_up_pos; lia).
  split; [apply Nat.mod_upper_bound; lia |].
  apply Nat.Div0.div_lt_upper_bound.
  pose proof (ceil_div_room count (Nat.sqrt_up count) Hcols). lia.
Qed.

(** Where the grid layout puts the node at a given index. *)
Lemma gridLayout_at nodes options i node :
  NoDup (ids nodes) → nodes !! i = Some node →
  let step := or_default (spacing options) 150 in
  let cols := Nat.sqrt_up (length nodes) in
  let rows := ceil_div (length nodes) cols in
  gridLayout nodes options !! node_id node
  = Some (mkPosition
            (or_default (centerX options) 0 - (INR cols - 1) * step / 2
             + INR (grid_cell (length nodes) i).1 * step)
            (or_default (centerY options) 0 - (INR rows - 1) * step / 2
             + INR (grid_cell (length nodes) i).2 * step)).
Proof.
  intros Hnd Hi. simpl. unfold gridLayout.
  by rewrite (write_each_at _ _ 0%nat ∅ i node Hnd Hi).
Qed.

Lemma gridLayout_from nodes options k p :
  gridLayout nodes options !! k = Some p →
  let step := or_default (spacing options) 150 in
  let cols := Nat.sqrt_up (length nodes) in
  let rows := ceil_div (length nodes) cols in
  ∃ i node, nodes !! i = Some node ∧ node_id node = k ∧
    p = mkPosition
          (or_default (centerX options) 0 - (INR cols - 1) * step / 2
           + INR (grid_cell (length nodes) i).1 * step)
          (or_default (centerY options) 0 - (INR rows - 1) * step / 2
           + INR (grid_cell (length nodes) i).2 * step).
Proof.
  intros Hk. simpl. unfold gridLayout in Hk.
  apply write_each_from in Hk as [Hk | (i & node & Hi & Hid & ->)]; [done |].
  by exists i, node.
Qed.

(** X1: the grid layout never puts two nodes of a node set at the same
    point. *)
Theorem grid_distinct_positions (nodes : list Node) (options : LayoutOptions)
    (i j : nat) (ni nj : Node) :
  NoDup (ids nodes) →
  nodes !! i = Some ni → nodes !! j = Some nj → i ≠ j →
  gridLayout nodes options !! node_id ni ≠ gridLayout nodes options !! node_id nj.
Proof.
  intros Hnd Hi Hj Hne.
  rewrite (gridLayout_at nodes options i ni Hnd Hi).
  rewrite (gridLayout_at nodes options j nj Hnd Hj).
  pose proof (or_default_ne_0 (spacing options) 150 ltac:(lra)) as Hs.
  intros [= Hx Hy]. apply Hne.
  unfold grid_cell in Hx, Hy. simpl in Hx, Hy.
  assert (Hcol : (i mod Nat.sqrt_up (length nodes) = j mod Nat.sqrt_up (length nodes))%nat).
  { apply INR_eq. apply (Rmult_eq_reg_r (or_default (spacing options) 150)); [lra | done]. }
  assert (Hrow : (i / Nat.sqrt_up (length nodes) = j / Nat.sqrt_up (length nodes))%nat).
  { apply INR_eq. apply (Rmult_eq_reg_r (or_default (spacing options) 150)); [lra | done]. }
  rewrite (Nat.div_mod_eq i (Nat.sqrt_up (length nodes))).
  rewrite (Nat.div_mod_eq j (Nat.sqrt_up (length nodes))).
  by rewrite Hcol, Hrow.
Qed.

(** X2: the grid is a block of ceil(sqrt N) columns with room for all N
    nodes, centred on the configured centre: no position is further from
    the centre than half the width of the block horizontally and half its
    height vertically. *)
Theorem grid_block_is_centred (nodes : list Node) (options : LayoutOptions)
    (k : string) (p : Position) :
  gridLayout nodes options !! k = Some p →
  let step := or_default (spacing options) 150 in
  let cols := Nat.sqrt_up (length nodes) in
  let rows := ceil_div (length nodes) cols in
  Z.of_nat cols = ceilZ (sqrt (INR (length nodes))) ∧
  Z.of_nat rows = ceilZ (INR (length nodes) / INR cols) ∧
  (length nodes <= cols * rows)%nat ∧
  Rabs (pos_x p - default 0 (centerX options)) <= (INR cols - 1) * Rabs step / 2 ∧
  Rabs (pos_y p - default 0 (centerY options)) <= (INR rows - 1) * Rabs step / 2.
Proof.
  intros Hk step cols rows.
  destruct (gridLayout_from nodes options k p Hk) as (i & node & Hi & _ & ->).
  assert (Hlen : (i < length nodes)%nat) by (by eapply lookup_lt_Some).
  assert (Hcols : (0 < cols)%nat) by (apply Nat.sqrt_up_pos; lia).
  destruct (grid_cell_bounds (length nodes) i Hlen) as [Hcol Hrow].
  fold cols in Hcol. fold cols rows in Hrow.
  split; [symmetry; apply sqrt_up_is_ceil_sqrt |].
  split; [symmetry; by apply ceil_div_is_ceil |].
  split; [by apply ceil_div_room |].
  rewrite !or_default_center. simpl. fold cols rows step.
  assert (Hhalf : ∀ (c n : nat) (s : R), (c < n)%nat →
            Rabs (- (INR n - 1) * s / 2 + INR c * s) <= (INR n - 1) * Rabs s / 2).
  { intros c n s Hc.
    replace (- (INR n - 1) * s / 2 + INR c * s) with ((INR c - (INR n - 1) / 2) * s) by lra.
    rewrite Rabs_mult.
    assert (Hc0 : 0 <= INR c) by apply pos_INR.
    assert (Hc1 : INR c <= INR n - 1).
    { assert (Hle : (S c <= n)%nat) by lia. apply le_INR in Hle. rewrite S_INR in Hle. lra. }
    assert (Habs : Rabs (INR c - (INR n - 1) / 2) <= (INR n - 1) / 2).
    { apply Rabs_le. lra. }
    pose proof (Rabs_pos s).
    replace ((INR n - 1) * Rabs s / 2) with ((INR n - 1) / 2 * Rabs s) by lra.
    by apply Rmult_le_compat_r. }
  split.
  - match goal with
    | |- Rabs ?e <= _ =>
        replace e with (- (INR cols - 1) * step / 2 + INR (i mod cols) * step)
          by lra
    end.
    apply Hhalf. exact Hcol.
  - match goal with
    | |- Rabs ?e <= _ =>
        replace e with (- (INR rows - 1) * step / 2 + INR (i / cols) * step)
          by lra
    end.
    apply Hhalf. exact Hrow.
Qed.


(** ** Hierarchical layout: when it returns, and what it places *)

Lemma find_node_is_Some nodes k :
  k ∈ ids nodes → ∃ n, find_node nodes k = Some n ∧ n ∈ nodes ∧ node_id n = k.
Proof.
  intros Hk. destruct (find_node nodes k) as [n |] eqn:Hfind.
  - exists n. split; [done |]. by apply find_node_Some.
  - exfalso. unfold find_node in Hfind.
    apply elem_of_ids in Hk as (n & Hn & Hid).
    pose proof (find_none _ _ Hfind n) as Hnone.
    assert (Hin : In n nodes) by (by apply list_elem_of_In).
    specialize (Hnone Hin). simpl in Hnone.
    rewrite bool_decide_eq_true_2 in Hnone by done. done.
Qed.

Lemma init_graph_keys nodes u :
  u ∈ ids nodes →
  is_Some ((init_graph nodes).1 !! u) ∧ is_Some ((init_graph nodes).2 !! u).
Proof.
  unfold init_graph.
  assert (Hgen : ∀ st : gmap string (list string) * gmap string Z,
            (u ∈ ids nodes ∨ (is_Some (st.1 !! u) ∧ is_Some (st.2 !! u))) →
            let st' := fold_left (λ '(graph, inDegree) node,
                         (<[node_id node := []]> graph, <[node_id node := 0%Z]> inDegree))
                       nodes st in
            is_Some (st'.1 !! u) ∧ is_Some (st'.2 !! u)).
  { induction nodes as [| n nodes IH]; intros [graph inDegree] Hst; simpl.
    - destruct Hst as [Hin | Hst]; [by apply elem_of_nil in Hin | done].
    - apply IH. simpl.
      destruct (decide (node_id n = u)) as [-> | Hne].
      + right. by rewrite !lookup_insert_eq.
      + destruct Hst as [Hin | Hst].
        * left. apply elem_of_cons in Hin as [Heq | Hin]; [by subst | done].
        * right. by rewrite !lookup_insert_ne. }
  intros Hu. apply Hgen. by left.
Qed.

Lemma add_dependencies_returns connections st :
  (∀ c, c ∈ dependencies connections → is_Some (st.1 !! conn_from c)) →
  ∃ st', forEach_throwing add_dependency connections st = Returns st' ∧
         (∀ u, is_Some (st.1 !! u) → is_Some (st'.1 !! u)) ∧
         (∀ u, is_Some (st.2 !! u) → is_Some (st'.2 !! u)).
Proof.
  revert st. induction connections as [| c cs IH]; intros [graph inDegree] Hfrom; simpl.
  - by eexists.
  - unfold dependencies in Hfrom. rewrite filter_cons in Hfrom.
    destruct (decide (conn_type c = dependency)) as [Hdep | Hdep]; simpl.
    + destruct (Hfrom c) as [targets Htargets]; [by left |]. simpl in Htargets.
      rewrite Htargets. simpl.
      destruct (IH (<[conn_from c := targets ++ [conn_to c]]> graph,
                    <[conn_to c := (default 0 (inDegree !! conn_to c) + 1)%Z]> inDegree))
        as (st' & Hrun & Hg & Hd).
      { intros c' Hc'. simpl. rewrite lookup_insert. case_decide; [done |].
        apply Hfrom. by right. }
      exists st'. split; [done |]. simpl in *. split.
      * intros u Hu. apply Hg. rewrite lookup_insert. by case_decide.
      * intros u Hu. apply Hd. rewrite lookup_insert. by case_decide.
    + apply IH. intros c' Hc'. by apply Hfrom.
Qed.

Lemma build_graph_returns nodes connections :
  (∀ c, c ∈ dependencies connections → conn_from c ∈ ids nodes) →
  ∃ graph inDegree,
    build_graph nodes connections = Returns (graph, inDegree) ∧
    (∀ u, u ∈ ids nodes → is_Some (graph !! u)) ∧
    (∀ u, u ∈ ids nodes → is_Some (inDegree !! u)).
Proof.
  intros Hfrom. unfold build_graph.
  destruct (add_dependencies_returns connections (init_graph nodes))
    as ([graph inDegree] & Hrun & Hg & Hd).
  { intros c Hc. by apply init_graph_keys, Hfrom. }
  exists graph, inDegree. split; [done |]. split.
  - intros u Hu. apply Hg. by apply init_graph_keys.
  - intros u Hu. apply Hd. by apply init_graph_keys.
Qed.

Lemma elem_of_targets_of deps u t :
  t ∈ targets_of deps u ↔ ∃ c, c ∈ deps ∧ conn_from c = u ∧ conn_to c = t.
Proof.
  unfold targets_of. rewrite list_elem_of_fmap. setoid_rewrite list_elem_of_filter.
  naive_solver.
Qed.

Lemma zero_hits_targets (inDegree : gmap string Z) (ts : list string) (v : string) : v ∈ zero_hits inDegree ts → v ∈ ts.
Proof.
  intros (d & _ & Hd)%zero_hits_spec. apply occ_pos. lia.
Qed.

Lemma found_nodes (nodes : list Node) (hits : list string) :
  (∀ h, h ∈ hits → h ∈ ids nodes) →
  ∃ ns, find_node nodes <$> hits = Some <$> ns ∧ ∀ n, n ∈ ns → n ∈ nodes.
Proof.
  induction hits as [| h hits IH]; intros Hall.
  - exists []. split; [done |]. intros n Hn. by apply elem_of_nil in Hn.
  - destruct IH as (ns & Heq & Hns); [intros h' Hh'; apply Hall; by right |].
    destruct (find_node_is_Some nodes h) as (n & Hfind & Hn & _); [apply Hall; by left |].
    exists (n :: ns). split; [by rewrite !fmap_cons, Hfind, Heq |].
    intros n' [-> | Hn']%elem_of_cons; auto.
Qed.

Lemma release_level_returns nodes graph ns st :
  (∀ n, n ∈ ns → is_Some (graph !! node_id n)) →
  forEach_throwing (release_node nodes graph) (Some <$> ns) st
  = Returns (fold_left (release_target nodes) (level_targets graph ns) st).
Proof.
  revert st. induction ns as [| n ns IH]; intros st Hgraph; [done |].
  rewrite fmap_cons. cbn [forEach_throwing release_node].
  destruct (Hgraph n) as [ts Hts]; [by left |]. rewrite Hts.
  cbn [mbind outcome_bind]. rewrite IH by (intros n' Hn'; apply Hgraph; by right).
  unfold level_targets. rewrite fmap_cons. cbn [concat]. by rewrite Hts, fold_left_app.
Qed.

Section LevelsReturn.
Variables (nodes : list Node) (graph : gmap string (list string)) (deps : list Connection).
Hypothesis graph_targets : ∀ u ts, graph !! u = Some ts → ts = targets_of deps u.
Hypothesis graph_keys : ∀ u, u ∈ ids nodes → is_Some (graph !! u).
Hypothesis targets_attached : ∀ c, c ∈ deps → conn_to c ∈ ids nodes.

Lemma level_targets_attached ns t :
  (∀ n, n ∈ ns → n ∈ nodes) → t ∈ level_targets graph ns → t ∈ ids nodes.
Proof.
  intros Hns. rewrite (level_targets_deps graph deps graph_targets).
  - intros Ht. apply list_elem_of_In, in_concat in Ht as (ts & Hts & Ht).
    apply list_elem_of_In, list_elem_of_fmap in Hts as (u & -> & _).
    apply list_elem_of_In, elem_of_targets_of in Ht as (c & Hc & _ & <-).
    by apply targets_attached.
  - intros n Hn. apply graph_keys, elem_of_ids. exists n. split; [by apply Hns | done].
Qed.

(** With every dependency attached the loop never reads [undefined]. *)
Lemma kahn_levels_never_throws fuel inDegree ns :
  (∀ n, n ∈ ns → n ∈ nodes) →
  kahn_levels fuel nodes graph inDegree (Some <$> ns) ≠ Throws.
Proof.
  revert inDegree ns. induction fuel as [| fuel IH]; intros inDegree ns Hns.
  - by destruct ns.
  - destruct ns as [| n0 ns0] eqn:Hcase; [done |]. rewrite <- Hcase in *.
    assert (Hcons : ∃ c cur, Some <$> ns = c :: cur) by (rewrite Hcase; by eexists _, _).
    destruct Hcons as (c & cur & Hcur). rewrite Hcur. cbn [kahn_levels]. rewrite <- Hcur.
    rewrite release_level_returns.
    2: { intros n Hn. apply graph_keys, elem_of_ids. exists n. split; [by apply Hns | done]. }
    rewrite release_targets_fold. cbn [mbind outcome_bind]. simpl.
    destruct (found_nodes nodes (zero_hits inDegree (level_targets graph ns)))
      as (ns2 & -> & Hns2).
    { intros h Hh%zero_hits_targets. by eapply level_targets_attached. }
    specialize (IH (decrement_all inDegree (level_targets graph ns)) ns2 Hns2).
    by destruct (kahn_levels fuel nodes graph _ (Some <$> ns2)).
Qed.
End LevelsReturn.

Lemma kahn_levels_all_Some fuel nodes graph inDegree currentLevel levels :
  kahn_levels fuel nodes graph inDegree currentLevel = Returns levels →
  ∀ level, level ∈ levels → ∃ ns, level = Some <$> ns.
Proof.
  revert inDegree currentLevel levels.
  induction fuel as [| fuel IH]; intros inDegree currentLevel levels Hrun.
  - destruct currentLevel; [| done]. injection Hrun as <-.
    intros level Hin. by apply elem_of_nil in Hin.
  - destruct currentLevel as [| c cur].
    { injection Hrun as <-. intros level Hin. by apply elem_of_nil in Hin. }
    pose proof (kahn_levels_head _ _ _ _ _ _ Hrun) as Hhead.
    cbn [kahn_levels] in Hrun.
    destruct (forEach_throwing (release_node nodes graph) (c :: cur) (inDegree, []))
      as [[inDegree' nextLevel] | |]; [| done | done].
    cbn [mbind outcome_bind] in Hrun.
    destruct (kahn_levels fuel nodes graph inDegree' nextLevel) as [rest | |] eqn:Hrest;
      [| done | done].
    injection Hrun as <-.
    intros level [-> | Hin]%elem_of_cons; [done |]. by eapply IH.
Qed.

Lemma place_level_returns spacing centerX centerY positions ns levelIndex :
  ∃ positions',
    place_level spacing centerX centerY positions (Some <$> ns) levelIndex
      = Returns positions' ∧
    dom positions' = dom positions ∪ list_to_set (ids ns).
Proof.
  unfold place_level. rewrite length_fmap.
  generalize (centerX - INR (length ns) * spacing / 2) as startX. intros startX.
  generalize 0%nat as j. revert positions.
  induction ns as [| n ns IH]; intros positions j.
  - exists positions. split; [done |]. set_solver.
  - rewrite fmap_cons. cbn [forEach_indexed mbind outcome_bind].
    destruct (IH (<[node_id n := mkPosition (startX + INR j * spacing)
                                            (centerY + INR levelIndex * spacing)]> positions)
                 (S j)) as (positions' & Hrun & Hdom).
    exists positions'. split; [exact Hrun |].
    rewrite Hdom, dom_insert_L. unfold ids. rewrite fmap_cons. set_solver.
Qed.

Lemma place_levels_returns spacing centerX centerY levels :
  (∀ level, level ∈ levels → ∃ ns, level = Some <$> ns) →
  ∃ positions,
    place_levels spacing centerX centerY levels = Returns positions ∧
    dom positions = list_to_set (concat (level_ids <$> levels)).
Proof.
  intros Hsome. unfold place_levels.
  assert (Hgen : ∀ (acc : Positions) i,
            ∃ positions,
              forEach_indexed
                (λ (acc : outcome Positions) (levelNodes : list (option Node))
                   (levelIndex : nat),
                   positions ← acc;
                   place_level spacing centerX centerY positions levelNodes levelIndex)
                levels i (Returns acc) = Returns positions ∧
              dom positions = dom acc ∪ list_to_set (concat (level_ids <$> levels))).
  { induction levels as [| level levels IH]; intros acc i.
    - exists acc. split; [done |]. set_solver.
    - destruct (Hsome level) as [ns ->]; [by left |].
      cbn [forEach_indexed mbind outcome_bind].
      destruct (place_level_returns spacing centerX centerY acc ns i)
        as (acc' & -> & Hdom').
      destruct (IH ltac:(intros l Hl; apply Hsome; by right) acc' (S i))
        as (positions & Hrun & Hdom).
      exists positions. split; [exact Hrun |].
      rewrite Hdom, Hdom'. rewrite fmap_cons. cbn [concat].
      rewrite level_ids_Some. set_solver. }
  destruct (Hgen ∅ 0%nat) as (positions & Hrun & Hdom).
  exists positions. split; [exact Hrun |]. rewrite Hdom. set_solver.
Qed.

Lemma hierarchicalLayout_returns (nodes : list Node)
    (connections : list Connection) (options : LayoutOptions) :
  dependencies_attached nodes connections →
  ∃ positions, hierarchicalLayout nodes connections options = Returns positions.
Proof.
  intros Hattached. unfold hierarchicalLayout.
  destruct (build_graph_returns nodes connections) as (graph & inDegree & Hbuild & Hg & Hd).
  { intros c Hc. by destruct (Hattached c Hc). }
  rewrite Hbuild. cbn [mbind outcome_bind].
  destruct (build_graph_spec _ _ _ Hbuild) as [Hgraph _]. simpl in Hgraph.
  destruct (kahn_levels (kahn_fuel inDegree) nodes graph inDegree _) as [levels | |] eqn:Hlevels.
  - cbn [mbind outcome_bind].
    destruct (place_levels_returns (or_default (spacing options) 200)
                (or_default (centerX options) 0) (or_default (centerY options) 0) levels)
      as (positions & Hplace & _); [by eapply kahn_levels_all_Some |].
    by exists positions.
  - exfalso.
    eapply (kahn_levels_never_throws nodes graph (dependencies connections) Hgraph Hg);
      [| | exact Hlevels].
    + intros c Hc. by destruct (Hattached c Hc).
    + intros n Hn. by apply list_elem_of_filter in Hn as [_ ?].
  - exfalso. apply kahn_levels_fuel in Hlevels; [done |].
    unfold kahn_fuel. pose proof (positive_keys_size inDegree). lia.
Qed.

Lemma filter_length_pos {A} (P : A → Prop) `{!∀ x, Decision (P x)} (l : list A) :
  (0 < length (filter P l))%nat → ∃ x, x ∈ l ∧ P x.
Proof.
  intros Hpos. destruct (filter P l) as [| x rest] eqn:Hfilter; [simpl in Hpos; lia |].
  assert (Hin : x ∈ filter P l) by (rewrite Hfilter; by left).
  apply list_elem_of_filter in Hin as [Hp Hin]. by exists x.
Qed.

Lemma pending_pos deps released v :
  (0 < pending deps released v)%nat →
  ∃ c, c ∈ deps ∧ conn_to c = v ∧ conn_from c ∉ released.
Proof.
  unfold pending. intros (c & Hc & Hv & Hout)%filter_length_pos. by exists c.
Qed.

Section LayersClosed.
Variables (nodes : list Node) (graph : gmap string (list string)) (deps : list Connection).
Hypothesis graph_targets : ∀ u ts, graph !! u = Some ts → ts = targets_of deps u.

(** What the layering has reached when it stops: each level after the
    first hangs on the level before it, and a node all of whose
    dependencies come from placed nodes is placed. *)
Lemma kahn_levels_tight_closed fuel inDegree released ns levels :
  NoDup (ids ns) →
  (∀ u, u ∈ ids ns → u ∉ released) →
  (∀ v d, inDegree !! v = Some d → d = Z.of_nat (pending deps released v)) →
  (∀ w, w ∈ released ∨ w ∈ ids ns → pending deps released w = 0%nat) →
  (∀ v, v ∈ ids nodes → is_Some (inDegree !! v)) →
  (∀ v, v ∈ ids nodes → pending deps released v = 0%nat → v ∈ released ∨ v ∈ ids ns) →
  kahn_levels fuel nodes graph inDegree (Some <$> ns) = Returns levels →
  match levels with
  | [] => ns = []
  | level :: rest => level = Some <$> ns ∧ tight deps (ids ns) rest
  end ∧
  ∀ v, v ∈ ids nodes →
       pending deps (released ∪ list_to_set (concat (level_ids <$> levels))) v = 0%nat →
       v ∈ released ∪ list_to_set (concat (level_ids <$> levels)).
Proof.
  revert inDegree released ns levels.
  induction fuel as [| fuel IH];
    intros inDegree released ns levels Hnd Hdisj Hcount Hzero Hkeys Hclosed Hrun.
  { destruct ns; [| done]. injection Hrun as <-. simpl. split; [done |].
    intros v Hv. rewrite union_empty_r_L. intros Hp.
    destruct (Hclosed v Hv Hp) as [? | Hin]; [done | by apply elem_of_nil in Hin]. }
  destruct ns as [| n0 ns0] eqn:Hns.
  { injection Hrun as <-. simpl. split; [done |].
    intros v Hv. rewrite union_empty_r_L. intros Hp.
    destruct (Hclosed v Hv Hp) as [? | Hin]; [done | by apply elem_of_nil in Hin]. }
  rewrite <- Hns in *. assert (Hcons : ∃ c cur, Some <$> ns = c :: cur).
  { rewrite Hns. by eexists _, _. }
  destruct Hcons as (c & cur & Hcur). rewrite Hcur in Hrun. cbn [kahn_levels] in Hrun.
  rewrite <- Hcur in Hrun. clear c cur Hcur.
  destruct (forEach_throwing (release_node nodes graph) (Some <$> ns) (inDegree, []))
    as [[inDegree' nextLevel] | |] eqn:Hlevel; [| done | done].
  cbn [mbind outcome_bind] in Hrun.
  destruct (kahn_levels fuel nodes graph inDegree' nextLevel) as [rest | |] eqn:Hrest;
    [| done | done].
  injection Hrun as <-.
  apply release_level_Returns in Hlevel as (ns' & Heq & Hgraph & Hfold).
  apply (inj (fmap Some)) in Heq. subst ns'.
  rewrite release_targets_fold, (level_targets_deps graph deps graph_targets) in Hfold by done.
  injection Hfold as -> ->. simpl in Hrest.
  set (ts := concat (targets_of deps <$> ids ns)) in *.
  destruct (kahn_levels_head _ _ _ _ _ _ Hrest) as [ns2 Hns2].
  pose proof (found_nodes_ids _ _ _ Hns2) as Hids2.
  rewrite Hns2 in Hrest.
  set (released' := released ∪ list_to_set (ids ns)).
  assert (Hocc : ∀ v, occ v ts
            = length (filter (λ c, conn_to c = v ∧ conn_from c ∈ ids ns) deps)).
  { intros v. by apply occ_level_targets. }
  assert (Hsplit : ∀ v, pending deps released v = (pending deps released' v + occ v ts)%nat).
  { intros v. rewrite Hocc. by apply pending_split. }
  assert (Hcount' : ∀ v d, decrement_all inDegree ts !! v = Some d →
            d = Z.of_nat (pending deps released' v)).
  { intros v d. rewrite decrement_all_lookup.
    destruct (inDegree !! v) as [d0 |] eqn:Hv; [| done]. simpl. intros [= <-].
    rewrite (Hcount v d0 Hv), Hsplit. lia. }
  assert (Hhit : ∀ w, w ∈ ids ns2 ↔
            ∃ d, inDegree !! w = Some d ∧
                 (0 < pending deps released w)%nat ∧ pending deps released' w = 0%nat).
  { intros w. rewrite Hids2, zero_hits_spec. split.
    - intros (d & Hw & Hd). exists d. split; [done |].
      pose proof (Hcount w d Hw). pose proof (Hsplit w). lia.
    - intros (d & Hw & Hpos & Hz). exists d. split; [done |].
      pose proof (Hcount w d Hw). pose proof (Hsplit w). lia. }
  destruct (IH (decrement_all inDegree ts) released' ns2 rest) as (Hshape & Hfinal);
    [| | done | | | | done |].
  - rewrite Hids2. apply zero_hits_NoDup.
  - intros u Hu. apply Hhit in Hu as (d & Hu & Hpos & Hz).
    unfold released'. rewrite not_elem_of_union, elem_of_list_to_set.
    split; intros Hin;
      [rewrite Hzero in Hpos by (by left) | rewrite Hzero in Hpos by (by right)]; lia.
  - intros w [Hw | Hw]; [| apply Hhit in Hw as (d & _ & _ & Hz); exact Hz].
    assert (pending deps released w = 0%nat) as Hw0.
    { apply Hzero. unfold released' in Hw. rewrite elem_of_union, elem_of_list_to_set in Hw.
      done. }
    pose proof (Hsplit w). lia.
  - intros v Hv. rewrite decrement_all_lookup.
    destruct (Hkeys v Hv) as [d ->]. by eexists.
  - intros v Hv Hzero'.
    destruct (decide (pending deps released v = 0%nat)) as [Hz | Hpos].
    + left. destruct (Hclosed v Hv Hz) as [? | ?]; unfold released'; set_solver.
    + right. apply Hhit. destruct (Hkeys v Hv) as [d Hd]. exists d.
      split; [done |]. split; [lia | done].
  - assert (Hfinal_eq :
      released ∪ list_to_set (concat (level_ids <$> (Some <$> ns) :: rest))
      = released' ∪ list_to_set (concat (level_ids <$> rest))).
    { rewrite fmap_cons. cbn [concat]. rewrite level_ids_Some, list_to_set_app_L.
      unfold released'. set_solver. }
    split; [split; [done |] | by rewrite Hfinal_eq].
    destruct rest as [| level rest']; [done |].
    destruct Hshape as [-> Htight]. cbn [tight]. rewrite level_ids_Some.
    split; [| done].
    intros v Hv. apply Hhit in Hv as (d & _ & Hpos & Hz).
    apply pending_pos in Hpos as (c & Hc & Hto & Hout).
    exists c. split; [done |]. split; [done |].
    assert (Hin : conn_from c ∈ released') by (by apply (pending_0 deps released' v)).
    unfold released' in Hin. set_solver.
Qed.
End LayersClosed.

Lemma add_dependencies_keys connections st st' :
  forEach_throwing add_dependency connections st = Returns st' →
  ∀ u, is_Some (st.2 !! u) → is_Some (st'.2 !! u).
Proof.
  revert st. induction connections as [| c cs IH]; intros [graph inDegree] Hrun u Hu;
    simpl in Hrun.
  - by injection Hrun as <-.
  - destruct (decide (conn_type c = dependency)); simpl in Hrun.
    + destruct (graph !! conn_from c); simpl in Hrun; [| done].
      apply (IH _ Hrun). simpl. rewrite lookup_insert. by case_decide.
    + by apply (IH _ Hrun).
Qed.

Lemma build_graph_inDegree_keys nodes connections graph inDegree :
  build_graph nodes connections = Returns (graph, inDegree) →
  ∀ u, u ∈ ids nodes → is_Some (inDegree !! u).
Proof.
  unfold build_graph. intros Hrun u Hu.
  apply (add_dependencies_keys _ _ _ Hrun). by apply init_graph_keys.
Qed.

(** What the layout has built when it returns. *)
Lemma hierarchicalLayout_levels nodes connections options positions :
  NoDup (ids nodes) →
  hierarchicalLayout nodes connections options = Returns positions →
  let deps := dependencies connections in
  ∃ levels,
    place_levels (or_default (spacing options) 200) (or_default (centerX options) 0)
                 (or_default (centerY options) 0) levels = Returns positions ∧
    dom positions = list_to_set (concat (level_ids <$> levels)) ∧
    layered deps ∅ levels ∧
    NoDup (concat (level_ids <$> levels)) ∧
    match levels with
    | [] => True
    | level :: rest => tight deps (level_ids level) rest
    end ∧
    ∀ v, v ∈ ids nodes →
         pending deps (list_to_set (concat (level_ids <$> levels))) v = 0%nat →
         v ∈ concat (level_ids <$> levels).
Proof.
  intros Hnd Hrun deps. unfold hierarchicalLayout in Hrun.
  destruct (build_graph nodes connections) as [[graph inDegree] | |] eqn:Hbuild;
    [| done | done].
  cbn [mbind outcome_bind] in Hrun.
  destruct (kahn_levels (kahn_fuel inDegree) nodes graph inDegree _) as [levels | |] eqn:Hlevels;
    [| done | done].
  cbn [mbind outcome_bind] in Hrun.
  destruct (build_graph_spec _ _ _ Hbuild) as [Hgraph Hcount]. simpl in Hgraph, Hcount.
  fold deps in Hgraph, Hcount.
  pose proof (build_graph_inDegree_keys _ _ _ _ Hbuild) as Hkeys.
  set (ns := filter (λ node : Node, inDegree !! node_id node = Some 0%Z) nodes) in *.
  assert (Hnd0 : NoDup (ids ns)) by (by apply ids_filter_NoDup).
  assert (Hdisj : ∀ u, u ∈ ids ns → u ∉ (∅ : gset string)) by (intros u _; set_solver).
  assert (Hcount0 : ∀ v d, inDegree !! v = Some d → d = Z.of_nat (pending deps ∅ v)).
  { intros v d Hv. specialize (Hcount v). by rewrite Hv in Hcount. }
  assert (Hzero : ∀ w, w ∈ (∅ : gset string) ∨ w ∈ ids ns → pending deps ∅ w = 0%nat).
  { intros w [Hw | Hw]; [set_solver |].
    apply elem_of_ids in Hw as (n & Hn & <-).
    apply list_elem_of_filter in Hn as [Hz _].
    specialize (Hcount (node_id n)). rewrite Hz in Hcount. simpl in Hcount. lia. }
  assert (Hclosed : ∀ v, v ∈ ids nodes → pending deps ∅ v = 0%nat →
            v ∈ (∅ : gset string) ∨ v ∈ ids ns).
  { intros v Hv Hp. right. destruct (Hkeys v Hv) as [d Hd].
    pose proof (Hcount0 v d Hd) as Hd0. rewrite Hp in Hd0. subst d.
    apply elem_of_ids in Hv as (n & Hn & <-). apply elem_of_ids. exists n.
    split; [| done]. by apply list_elem_of_filter. }
  destruct (kahn_levels_layered nodes graph deps Hgraph _ _ _ _ _
              Hnd0 Hdisj Hcount0 Hzero Hlevels) as (Hlay & Hnodup & _).
  destruct (kahn_levels_tight_closed nodes graph deps Hgraph _ _ _ _ _
              Hnd0 Hdisj Hcount0 Hzero Hkeys Hclosed Hlevels) as (Hshape & Hfinal).
  destruct (place_levels_returns (or_default (spacing options) 200)
              (or_default (centerX options) 0) (or_default (centerY options) 0) levels)
    as (positions' & Hplace & Hdom); [by eapply kahn_levels_all_Some |].
  assert (positions' = positions) as -> by congruence.
  exists levels. split; [done |]. split; [done |]. split; [done |]. split; [done |].
  split.
  - destruct levels as [| level rest]; [done |]. destruct Hshape as [-> Htight].
    by rewrite level_ids_Some.
  - intros v Hv Hp. rewrite union_empty_l_L in Hfinal.
    specialize (Hfinal v Hv Hp). by apply elem_of_list_to_set in Hfinal.
Qed.


Lemma tight_source deps first rest j level v :
  tight deps (level_ids first) rest →
  (first :: rest) !! S j = Some level → v ∈ level_ids level →
  ∃ c previous, c ∈ deps ∧ conn_to c = v ∧
                (first :: rest) !! j = Some previous ∧ conn_from c ∈ level_ids previous.
Proof.
  revert first j. induction rest as [| l rest IH]; intros first j Htight Hj Hv; [done |].
  destruct Htight as [Hhead Htight]. destruct j as [| j]; simpl in Hj.
  - injection Hj as ->. destruct (Hhead v Hv) as (c & Hc & Hto & Hfrom).
    by exists c, first.
  - destruct (IH l j Htight Hj Hv) as (c & previous & Hc & Hto & Hprev & Hfrom).
    by exists c, previous.
Qed.

(** X6: with distinct identifiers, a node that the hierarchical layout
    places has y = centerY + k·spacing, where k is the number of
    connections in the longest chain of dependencies that ends at the
    node. *)
Theorem hierarchical_level_is_longest_chain (nodes : list Node)
    (connections : list Connection) (options : LayoutOptions)
    (positions : Positions) (v : string) (p : Position) :
  NoDup (ids nodes) →
  hierarchicalLayout nodes connections options = Returns positions →
  positions !! v = Some p →
  ∃ k, pos_y p = default 0 (centerY options) + INR k * or_default (spacing options) 200 ∧
       chain (dependencies connections) v k ∧
       ∀ k', chain (dependencies connections) v k' → (k' <= k)%nat.
Proof.
  intros Hnd Hrun Hv.
  destruct (hierarchicalLayout_levels _ _ _ _ Hnd Hrun)
    as (levels & Hplace & _ & Hlay & Hnodup & Htight & _).
  set (deps := dependencies connections) in *.
  destruct (place_levels_from _ _ _ _ _ Hplace v p Hv) as (j & level & n & Hj & Hn & Hid & Hy).
  assert (Hin : v ∈ level_ids level) by (apply elem_of_level_ids; eauto).
  exists j. split; [by rewrite <- or_default_center |]. split.
  - clear Hy Hn Hid Hv p n. revert v level Hj Hin.
    induction j as [| j IH]; intros v level Hj Hin; [constructor |].
    destruct levels as [| first rest]; [done |].
    destruct (tight_source deps first rest j level v Htight Hj Hin)
      as (c & previous & Hc & <- & Hprev & Hfrom).
    apply chain_step; [done |]. by eapply IH.
  - intros k' Hchain. clear Hy Hn Hid Hv p n. revert j level Hj Hin.
    induction Hchain as [v | c k Hc Hchain IH]; intros j level Hj Hin; [lia |].
    destruct (layered_source _ _ _ _ _ _ Hlay Hj Hc Hin)
      as [Hempty | (j' & level' & Hlt & Hj' & Hfrom)]; [set_solver |].
    specialize (IH j' level' Hj' Hfrom). lia.
Qed.

(** X4: when every dependency connection has both ends among the nodes,
    the hierarchical layout returns a mapping and does not throw. *)
Theorem hierarchical_returns_when_attached (nodes : list Node)
    (connections : list Connection) (options : LayoutOptions) :
  dependencies_attached nodes connections →
  ∃ positions, hierarchicalLayout nodes connections options = Returns positions.
Proof. apply hierarchicalLayout_returns. Qed.

(** ** Hierarchical layout: the place of a node in its level *)

Lemma place_level_exact_step spacing centerY level levelIndex startX j
    (acc : outcome Positions) positions' :
  forEach_indexed
    (λ (acc : outcome Positions) (node : option Node) (nodeIndex : nat),
       positions ← acc;
       match node with
       | Some n =>
           Returns (<[node_id n := mkPosition (startX + INR nodeIndex * spacing)
                                              (centerY + INR levelIndex * spacing)]> positions)
       | None => Throws
       end)
    level j acc = Returns positions' →
  ∃ positions, acc = Returns positions ∧
    ∀ k p, positions' !! k = Some p →
      positions !! k = Some p ∨
      ∃ i n, level !! i = Some (Some n) ∧ node_id n = k ∧
             p = mkPosition (startX + INR (j + i) * spacing)
                            (centerY + INR levelIndex * spacing).
Proof.
  revert j acc. induction level as [| node level IH]; intros j acc Hrun; simpl in Hrun.
  - exists positions'. split; [done |]. by left.
  - apply IH in Hrun as (positions1 & Hstep & Hfrom).
    destruct acc as [positions | |]; simpl in Hstep; [| done | done].
    destruct node as [n |]; [| done]. injection Hstep as <-.
    exists positions. split; [done |].
    intros k p Hk. destruct (Hfrom k p Hk) as [Hin | (i & n' & Hn' & Hid & Hp)].
    + rewrite lookup_insert in Hin. case_decide as Hkey.
      * injection Hin as <-. right. exists 0%nat, n. rewrite Nat.add_0_r. done.
      * by left.
    + right. exists (S i), n'. split; [done |]. split; [done |].
      by replace (j + S i)%nat with (S j + i)%nat by lia.
Qed.

Lemma place_levels_exact_step spacing centerX centerY levels j0
    (acc : outcome Positions) positions' :
  forEach_indexed
    (λ (acc : outcome Positions) (levelNodes : list (option Node)) (levelIndex : nat),
       positions ← acc;
       place_level spacing centerX centerY positions levelNodes levelIndex)
    levels j0 acc = Returns positions' →
  ∃ positions, acc = Returns positions ∧
    ∀ k p, positions' !! k = Some p →
      positions !! k = Some p ∨
      ∃ j level i n, levels !! j = Some level ∧ level !! i = Some (Some n) ∧ node_id n = k ∧
        p = mkPosition (centerX - INR (length level) * spacing / 2 + INR i * spacing)
                       (centerY + INR (j0 + j) * spacing).
Proof.
  revert j0 acc. induction levels as [| level levels IH]; intros j0 acc Hrun; simpl in Hrun.
  - exists positions'. split; [done |]. by left.
  - apply IH in Hrun as (positions1 & Hstep & Hfrom).
    destruct acc as [positions | |]; simpl in Hstep; [| done | done].
    exists positions. split; [done |].
    intros k p Hk. destruct (Hfrom k p Hk) as [Hin | (j & l & i & n & Hj & Hi & Hid & Hp)].
    + unfold place_level in Hstep.
      apply place_level_exact_step in Hstep as (positions0 & [= <-] & Hlevel).
      destruct (Hlevel k p Hin) as [? | (i & n & Hi & Hid & Hp)]; [by left |].
      right. exists 0%nat, level, i, n. by rewrite Nat.add_0_r.
    + right. exists (S j), l, i, n. simpl.
      by replace (j0 + S j)%nat with (S j0 + j)%nat by lia.
Qed.

Lemma hierarchicalLayout_exact nodes connections options positions :
  hierarchicalLayout nodes connections options = Returns positions →
  ∃ levels : list (list (option Node)),
    ∀ k p, positions !! k = Some p →
      ∃ j level i n, levels !! j = Some level ∧ level !! i = Some (Some n) ∧ node_id n = k ∧
        p = mkPosition
              (default 0 (centerX options)
               - INR (length level) * or_default (spacing options) 200 / 2
               + INR i * or_default (spacing options) 200)
              (default 0 (centerY options) + INR j * or_default (spacing options) 200).
Proof.
  unfold hierarchicalLayout.
  destruct (build_graph nodes connections) as [[graph inDegree] | |]; [| done | done].
  cbn [mbind outcome_bind].
  destruct (kahn_levels (kahn_fuel inDegree) nodes graph inDegree _) as [levels | |];
    [| done | done].
  cbn [mbind outcome_bind]. unfold place_levels. intros Hplace. exists levels.
  apply place_levels_exact_step in Hplace as (positions0 & [= <-] & Hfrom).
  intros k p Hk. destruct (Hfrom k p Hk) as [? | Hlevel]; [done |].
  by rewrite <- !or_default_center.
Qed.

Lemma hierarchicalLayout_injective nodes connections options positions a b p :
  hierarchicalLayout nodes connections options = Returns positions →
  positions !! a = Some p → positions !! b = Some p →
  a = b.
Proof.
  intros Hrun Ha Hb.
  destruct (hierarchicalLayout_exact _ _ _ _ Hrun) as (levels & Hexact).
  pose proof (or_default_ne_0 (spacing options) 200 ltac:(lra)) as Hs.
  set (s := or_default (spacing options) 200) in *.
  destruct (Hexact a p Ha) as (j & level & i & n & Hj & Hi & <- & ->).
  destruct (Hexact b _ Hb) as (j' & level' & i' & n' & Hj' & Hi' & <- & [= Hx Hy]).
  assert (j = j').
  { apply INR_eq. apply (Rmult_eq_reg_r s); [lra | done]. }
  subst j'. rewrite Hj in Hj'. injection Hj' as <-.
  assert (i = i').
  { apply INR_eq. apply (Rmult_eq_reg_r s); [lra | done]. }
  subst i'. rewrite Hi in Hi'. injection Hi' as <-. done.
Qed.

(** X7: the hierarchical layout never gives two identifiers the same
    point: within a level the nodes are [spacing] apart, and the levels
    are [spacing] apart. *)
Theorem hierarchical_distinct_positions (nodes : list Node) (connections : list Connection)
    (options : LayoutOptions) (positions : Positions) (a b : string) (pa pb : Position) :
  hierarchicalLayout nodes connections options = Returns positions →
  a ≠ b →
  positions !! a = Some pa → positions !! b = Some pb →
  pa ≠ pb.
Proof.
  intros Hrun Hne Ha Hb Heq. subst pb. apply Hne.
  by eapply hierarchicalLayout_injective.
Qed.

(** ** Hierarchical layout without a dependency *)







(** ** centerOnNode: what is placed is what can be reached *)







(** ** centerOnNode: the ring of a node is its distance from the focus node *)












(** ** Force-directed layout: the forces cancel *)

















(** ** Force-directed layout: what a pass does to a node *)







(** ** Canvas: where the visible nodes and lines are drawn *)

Lemma renderConnections_Some currentMap (connections : list Connection) pan zoom c :
  c ∈ connections →
  renderConnections currentMap connections pan zoom
  = Some (render_connection currentMap pan zoom <$> connections).
Proof. intros Hc. destruct connections; [by apply elem_of_nil in Hc | done]. Qed.

Section CanvasScreen.
Variables SCREEN_WIDTH SCREEN_HEIGHT : R.

Lemma node_in_view_screen pan zoom node :
  0 < zoom →
  node_in_view SCREEN_WIDTH SCREEN_HEIGHT pan zoom node ↔
  near_screen SCREEN_WIDTH SCREEN_HEIGHT zoom (worldToScreen (node_position node) pan zoom).
Proof.
  intros Hz. unfold node_in_view, near_screen, worldToScreen, buffer. simpl.
  set (x := pos_x (node_position node)). set (y := pos_y (node_position node)).
  assert (Hdiv : ∀ a b c, a / zoom + b <= c ↔ a <= (c - b) * zoom).
  { intros a b c. split; intros H.
    - apply (Rmult_le_reg_r (/ zoom)); [by apply Rinv_0_lt_compat |].
      replace ((c - b) * zoom * / zoom) with (c - b) by (field; lra).
      unfold Rdiv in H. lra.
    - apply (Rmult_le_compat_r (/ zoom)) in H; [| left; by apply Rinv_0_lt_compat].
      replace ((c - b) * zoom * / zoom) with (c - b) in H by (field; lra).
      unfold Rdiv. lra. }
  assert (Hdiv' : ∀ a b c, c <= a / zoom + b ↔ (c - b) * zoom <= a).
  { intros a b c. split; intros H.
    - apply (Rmult_le_reg_r (/ zoom)); [by apply Rinv_0_lt_compat |].
      replace ((c - b) * zoom * / zoom) with (c - b) by (field; lra).
      unfold Rdiv in H. lra.
    - apply (Rmult_le_compat_r (/ zoom)) in H; [| left; by apply Rinv_0_lt_compat].
      replace ((c - b) * zoom * / zoom) with (c - b) in H by (field; lra).
      unfold Rdiv. lra. }
  pose proof (Hdiv (- pos_x pan) (- 200) (x + 120)) as H1.
  pose proof (Hdiv' (- pos_x pan + SCREEN_WIDTH) 200 x) as H2.
  pose proof (Hdiv (- pos_y pan) (- 200) (y + 80)) as H3.
  pose proof (Hdiv' (- pos_y pan + SCREEN_HEIGHT) 200 y) as H4.
  split.
  - intros Hin.
    assert (¬ x + 120 < - pos_x pan / zoom - 200) by tauto.
    assert (¬ x > (- pos_x pan + SCREEN_WIDTH) / zoom + 200) by tauto.
    assert (¬ y + 80 < - pos_y pan / zoom - 200) by tauto.
    assert (¬ y > (- pos_y pan + SCREEN_HEIGHT) / zoom + 200) by tauto.
    assert (- pos_x pan / zoom + - 200 <= x + 120) as ?%H1 by lra.
    assert (x <= (- pos_x pan + SCREEN_WIDTH) / zoom + 200) as ?%H2 by lra.
    assert (- pos_y pan / zoom + - 200 <= y + 80) as ?%H3 by lra.
    assert (y <= (- pos_y pan + SCREEN_HEIGHT) / zoom + 200) as ?%H4 by lra.
    lra.
  - intros [[Hx1 Hx2] [Hy1 Hy2]].
    assert (- pos_x pan <= (x + 120 - - 200) * zoom) as ?%H1 by lra.
    assert ((x - 200) * zoom <= - pos_x pan + SCREEN_WIDTH) as ?%H2 by lra.
    assert (- pos_y pan <= (y + 80 - - 200) * zoom) as ?%H3 by lra.
    assert ((y - 200) * zoom <= - pos_y pan + SCREEN_HEIGHT) as ?%H4 by lra.
    lra.
Qed.

(** X13: with [zoom > 0], a node of the map is among [visibleNodes] exactly
    when the point at which it is drawn, position * zoom + pan, is on the
    screen widened by 200·zoom to the right and below, 320·zoom to the
    left and 280·zoom above; so a node drawn on the screen is never culled. *)
Theorem visibleNodes_iff_drawn_near_screen (m : MindMap) (pan : Position) (zoom : R)
    (node : Node) :
  0 < zoom →
  let q := worldToScreen (node_position node) pan zoom in
  (node ∈ visibleNodes SCREEN_WIDTH SCREEN_HEIGHT (Some m) pan zoom ↔
   node ∈ Object_values (map_nodes m) ∧
   - 320 * zoom <= pos_x q <= SCREEN_WIDTH + 200 * zoom ∧
   - 280 * zoom <= pos_y q <= SCREEN_HEIGHT + 200 * zoom) ∧
  (node ∈ Object_values (map_nodes m) →
   0 <= pos_x q <= SCREEN_WIDTH → 0 <= pos_y q <= SCREEN_HEIGHT →
   node ∈ visibleNodes SCREEN_WIDTH SCREEN_HEIGHT (Some m) pan zoom).
Proof.
  intros Hz q.
  assert (Hiff : node ∈ visibleNodes SCREEN_WIDTH SCREEN_HEIGHT (Some m) pan zoom ↔
            node ∈ Object_values (map_nodes m) ∧
            near_screen SCREEN_WIDTH SCREEN_HEIGHT zoom q).
  { unfold visibleNodes. rewrite list_elem_of_filter.
    rewrite (node_in_view_screen pan zoom node Hz). tauto. }
  unfold near_screen in Hiff. split.
  - rewrite Hiff. replace (- (120 + 200)) with (- 320) by lra.
    replace (- (80 + 200)) with (- 280) by lra. tauto.
  - intros Hin Hx Hy. apply Hiff. split; [done |]. nra.
Qed.

(** X14: in a map whose nodes are filed under their identifiers and with
    [zoom > 0], [renderConnections] draws a line for every visible
    connection, none is skipped, and both ends of every line are on the
    screen widened by the culling margin. *)
Theorem renderConnections_lines_near_screen (m : MindMap) (pan : Position) (zoom : R)
    (lines : list (option Line)) :
  keyed_by_id (map_nodes m) →
  0 < zoom →
  let visible := visibleNodes SCREEN_WIDTH SCREEN_HEIGHT (Some m) pan zoom in
  renderConnections (Some m) (visibleConnections (Some m) visible) pan zoom = Some lines →
  length lines = length (visibleConnections (Some m) visible) ∧
  ∀ l, l ∈ lines →
    ∃ line, l = Some line ∧
      near_screen SCREEN_WIDTH SCREEN_HEIGHT zoom (mkPosition (line_x1 line) (line_y1 line)) ∧
      near_screen SCREEN_WIDTH SCREEN_HEIGHT zoom (mkPosition (line_x2 line) (line_y2 line)).
Proof.
  intros Hkey Hz visible Hrun.
  unfold renderConnections in Hrun.
  destruct (visibleConnections (Some m) visible) as [| c0 cs] eqn:Hvis; [done |].
  assert (lines = render_connection (Some m) pan zoom <$> (c0 :: cs)) as -> by congruence.
  split; [apply length_fmap |].
  intros l Hl. apply list_elem_of_fmap in Hl as (c & -> & Hc).
  rewrite <- Hvis in Hc. unfold visibleConnections in Hc.
  apply list_elem_of_filter in Hc as [(Hfrom & Hto & Hvf & Hvt) _].
  assert (Hend : ∀ k, Exists (λ n, node_id n = k) visible →
            ∃ n, dict_get (map_nodes m) k = Some n ∧
                 near_screen SCREEN_WIDTH SCREEN_HEIGHT zoom
                   (worldToScreen (node_position n) pan zoom)).
  { intros k (n & Hn & Hid)%Exists_exists. exists n.
    unfold visible, visibleNodes in Hn. apply list_elem_of_filter in Hn as [Hview Hn].
    split; [| by apply node_in_view_screen].
    rewrite <- Hid. by apply keyed_by_id_get. }
  destruct (Hend _ Hvf) as (s & Hs & Hsn). destruct (Hend _ Hvt) as (t & Ht & Htn).
  unfold render_connection. cbn [mbind option_bind]. rewrite Hs, Ht.
  eexists. split; [reflexivity |]. done.
Qed.
End CanvasScreen.

Lemma two_node_map_keyed : keyed_by_id (map_nodes two_node_map).
Proof.
  split.
  - simpl. apply NoDup_cons. split; [set_solver |]. apply NoDup_singleton.
  - intros k n Hin. simpl in Hin.
    apply elem_of_cons in Hin as [[= -> ->] | Hin]; [done |].
    by apply list_elem_of_singleton in Hin as [= -> ->].
Defined.

(** ** Minimap *)

Lemma Math_min_le x l : Math_min x l <= x ∧ ∀ y, y ∈ l → Math_min x l <= y.
Proof.
  unfold Math_min. revert x. induction l as [| a l IH]; intros x; simpl.
  - split; [lra |]. intros y Hy. by apply elem_of_nil in Hy.
  - destruct (IH (Rmin x a)) as [Hhead Htail].
    pose proof (Rmin_l x a). pose proof (Rmin_r x a).
    split; [lra |]. intros y [-> | Hy]%elem_of_cons; [lra | by apply Htail].
Qed.

Lemma Math_max_ge x l : x <= Math_max x l ∧ ∀ y, y ∈ l → y <= Math_max x l.
Proof.
  unfold Math_max. revert x. induction l as [| a l IH]; intros x; simpl.
  - split; [lra |]. intros y Hy. by apply elem_of_nil in Hy.
  - destruct (IH (Rmax x a)) as [Hhead Htail].
    pose proof (Rmax_l x a). pose proof (Rmax_r x a).
    split; [lra |]. intros y [-> | Hy]%elem_of_cons; [lra | by apply Htail].
Qed.

Lemma Math_min_elem x l : Math_min x l = x ∨ Math_min x l ∈ l.
Proof.
  unfold Math_min. revert x. induction l as [| a l IH]; intros x; simpl; [by left |].
  destruct (IH (Rmin x a)) as [-> | Hin]; [| right; by right].
  unfold Rmin. destruct (Rle_dec x a); [by left | right; by left].
Qed.

(** What [minimapData] computes for a non-empty dictionary. *)
Lemma minimapData_frame nodes connections viewport first others :
  Object_values nodes = first :: others →
  let data := minimapData nodes connections viewport in
  let b := md_bounds data in
  (∀ n, n ∈ first :: others →
        minX b <= pos_x (node_position n) ∧ pos_x (node_position n) + 120 <= maxX b ∧
        minY b <= pos_y (node_position n) ∧ pos_y (node_position n) + 80 <= maxY b) ∧
  0 < md_scale data ∧
  (maxX b - minX b) * md_scale data <= 100 ∧
  (maxY b - minY b) * md_scale data <= 100 ∧
  md_nodes data
    = (λ node, mkMinimapNode node
                 ((pos_x (node_position node) - minX b) * md_scale data + 10)
                 ((pos_y (node_position node) - minY b) * md_scale data + 10))
        <$> (first :: others).
Proof.
  intros Hvalues. unfold minimapData. rewrite Hvalues. cbv zeta.
  set (mnX := Math_min _ _). set (mnY := Math_min _ _).
  set (mxX := Math_max _ _). set (mxY := Math_max _ _).
  cbn [md_bounds md_scale md_nodes minX minY maxX maxY].
  assert (Hbounds : ∀ n, n ∈ first :: others →
            mnX <= pos_x (node_position n) ∧ pos_x (node_position n) + 120 <= mxX ∧
            mnY <= pos_y (node_position n) ∧ pos_y (node_position n) + 80 <= mxY).
  { intros n Hn.
    destruct (Math_min_le (pos_x (node_position first))
                ((λ n, pos_x (node_position n)) <$> others)) as [H1 H1'].
    destruct (Math_min_le (pos_y (node_position first))
                ((λ n, pos_y (node_position n)) <$> others)) as [H2 H2'].
    destruct (Math_max_ge (pos_x (node_position first) + 120)
                ((λ n, pos_x (node_position n) + 120) <$> others)) as [H3 H3'].
    destruct (Math_max_ge (pos_y (node_position first) + 80)
                ((λ n, pos_y (node_position n) + 80) <$> others)) as [H4 H4'].
    apply elem_of_cons in Hn as [-> | Hn]; [done |].
    split; [apply H1'; apply list_elem_of_fmap; by exists n |].
    split; [apply H3'; apply list_elem_of_fmap; by exists n |].
    split; [apply H2'; apply list_elem_of_fmap; by exists n |].
    apply H4'; apply list_elem_of_fmap; by exists n. }
  destruct (Hbounds first ltac:(by left)) as (Hx1 & Hx2 & Hy1 & Hy2).
  assert (Hw : or_num (mxX - mnX) 100 = mxX - mnX).
  { unfold or_num. case_decide; [lra | done]. }
  assert (Hh : or_num (mxY - mnY) 100 = mxY - mnY).
  { unfold or_num. case_decide; [lra | done]. }
  rewrite Hw, Hh. unfold MINIMAP_SIZE, MINIMAP_PADDING.
  replace (120 - 2 * 10) with 100 by lra.
  set (scale := Rmin (100 / (mxX - mnX)) (100 / (mxY - mnY))).
  assert (Hpw : 0 < 100 / (mxX - mnX)) by (apply Rdiv_lt_0_compat; lra).
  assert (Hph : 0 < 100 / (mxY - mnY)) by (apply Rdiv_lt_0_compat; lra).
  assert (Hscale : 0 < scale) by (unfold scale; by apply Rmin_glb_lt).
  split; [done |]. split; [done |].
  split; [| split; [| done]].
  - apply (Rle_trans _ ((mxX - mnX) * (100 / (mxX - mnX)))).
    + apply Rmult_le_compat_l; [lra | apply Rmin_l].
    + right. field. lra.
  - apply (Rle_trans _ ((mxY - mnY) * (100 / (mxY - mnY)))).
    + apply Rmult_le_compat_l; [lra | apply Rmin_r].
    + right. field. lra.
Qed.

Lemma minimapData_empty nodes connections viewport :
  Object_values nodes = [] →
  minimapData nodes connections viewport
    = mkMinimapData (mkBounds 0 0 100 100) 1 [] [] (mkViewportRect 0 0 120 120).
Proof. intros Hvalues. unfold minimapData. by rewrite Hvalues. Qed.

Lemma md_scale_pos nodes connections viewport :
  0 < md_scale (minimapData nodes connections viewport).
Proof.
  destruct (Object_values nodes) as [| first others] eqn:Hvalues.
  - rewrite minimapData_empty by done. simpl. lra.
  - by destruct (minimapData_frame nodes connections viewport first others Hvalues)
      as (_ & ? & _).
Qed.

(** X15: the minimap draws every node inside the frame that the padding
    leaves, from 10 to 110 in both directions, and so does the whole
    footprint of the node, 120 by 80, at the scale of the minimap; the
    extent of the map is never 0, so the fallback extent 100 is never
    used. *)
Theorem minimap_nodes_inside_frame (nodes : NodeDict) (connections : list Connection)
    (viewport : Viewport) (node : MinimapNode) :
  let data := minimapData nodes connections viewport in
  node ∈ md_nodes data →
  0 < md_scale data ∧
  120 <= maxX (md_bounds data) - minX (md_bounds data) ∧
  80 <= maxY (md_bounds data) - minY (md_bounds data) ∧
  10 <= mn_x node ∧ mn_x node + 60 * md_scale data <= mn_x node + 120 * md_scale data <= 110 ∧
  10 <= mn_y node ∧ mn_y node + 40 * md_scale data <= mn_y node + 80 * md_scale data <= 110.
Proof.
  intros data Hnode. unfold data in *.
  destruct (Object_values nodes) as [| first others] eqn:Hvalues.
  { rewrite minimapData_empty in Hnode by done. by apply elem_of_nil in Hnode. }
  destruct (minimapData_frame nodes connections viewport first others Hvalues)
    as (Hbounds & Hscale & Hw & Hh & Hnodes).
  rewrite Hnodes in Hnode. apply list_elem_of_fmap in Hnode as (n & -> & Hn).
  destruct (Hbounds n Hn) as (Hx1 & Hx2 & Hy1 & Hy2).
  destruct (Hbounds first ltac:(by left)) as (Hf1 & Hf2 & Hf3 & Hf4).
  set (s := md_scale (minimapData nodes connections viewport)) in *.
  set (b := md_bounds (minimapData nodes connections viewport)) in *.
  cbn [mn_x mn_y].
  split; [done |]. split; [lra |]. split; [lra |].
  assert (0 <= (pos_x (node_position n) - minX b) * s) by (apply Rmult_le_pos; lra).
  assert (0 <= (pos_y (node_position n) - minY b) * s) by (apply Rmult_le_pos; lra).
  assert ((pos_x (node_position n) + 120 - minX b) * s <= (maxX b - minX b) * s)
    by (apply Rmult_le_compat_r; lra).
  assert ((pos_y (node_position n) + 80 - minY b) * s <= (maxY b - minY b) * s)
    by (apply Rmult_le_compat_r; lra).
  lra.
Qed.

(** X16: with nodes on the map and a zoom other than 0, the rectangle that
    the minimap draws for the viewport starts at 10 or more and ends at
    110 or less in both directions: it never leaves the padded frame. *)
Theorem minimap_viewport_inside_frame (nodes : NodeDict) (connections : list Connection)
    (viewport : Viewport) :
  Object_values nodes ≠ [] →
  vp_zoom viewport ≠ 0 →
  let r := md_viewportRect (minimapData nodes connections viewport) in
  10 <= vr_x r ∧ vr_x r + vr_width r <= 110 ∧ vr_width r <= 100 ∧
  10 <= vr_y r ∧ vr_y r + vr_height r <= 110 ∧ vr_height r <= 100.
Proof.
  intros Hne _. unfold minimapData.
  destruct (Object_values nodes) as [| first others]; [done |]. cbv zeta.
  cbn [md_viewportRect vr_x vr_y vr_width vr_height].
  unfold MINIMAP_SIZE, MINIMAP_PADDING.
  assert (Hclamp : ∀ w x, 10 <= Rmax 10 (Rmin (120 - 10 - w) x) ∧
                          Rmax 10 (Rmin (120 - 10 - w) x) + Rmin w (120 - 2 * 10) <= 110 ∧
                          Rmin w (120 - 2 * 10) <= 100).
  { intros w x. unfold Rmax, Rmin. repeat destruct (Rle_dec _ _); lra. }
  split; [apply Hclamp |]. split; [apply Hclamp |]. split; [apply (Hclamp _ 0) |].
  split; [apply Hclamp |]. split; [apply Hclamp | apply (Hclamp _ 0)].
Qed.

Lemma find_minimap_node (f : Node → MinimapNode) (nodeList : list Node) (k : string) :
  (∀ n, mn_node (f n) = n) →
  List.find (λ n, bool_decide (node_id (mn_node n) = k)) (f <$> nodeList)
    = f <$> find_node nodeList k.
Proof.
  intros Hf. unfold find_node. induction nodeList as [| n nodeList IH]; [done |].
  rewrite fmap_cons. cbn [List.find]. rewrite Hf.
  destruct (bool_decide (node_id n = k)); [done | exact IH].
Qed.

(** X17: the minimap draws a line for a connection exactly when both its
    ends are identifiers of nodes, in the order of the connections; the
    line joins the centres of the footprints of the first nodes with these
    identifiers, in minimap coordinates. *)
Theorem minimap_lines_join_found_nodes (nodes : NodeDict) (connections : list Connection)
    (viewport : Viewport) :
  Object_values nodes ≠ [] →
  let data := minimapData nodes connections viewport in
  let toMinimapX x := (x - minX (md_bounds data)) * md_scale data + 10 in
  let toMinimapY y := (y - minY (md_bounds data)) * md_scale data + 10 in
  ml_conn <$> md_connections data
    = filter (λ c, conn_from c ∈ ids (Object_values nodes) ∧
                   conn_to c ∈ ids (Object_values nodes)) connections ∧
  ∀ line, line ∈ md_connections data →
    ∃ fromNode toNode,
      find_node (Object_values nodes) (conn_from (ml_conn line)) = Some fromNode ∧
      find_node (Object_values nodes) (conn_to (ml_conn line)) = Some toNode ∧
      ml_x1 line = toMinimapX (pos_x (node_position fromNode) + 60) ∧
      ml_y1 line = toMinimapY (pos_y (node_position fromNode) + 40) ∧
      ml_x2 line = toMinimapX (pos_x (node_position toNode) + 60) ∧
      ml_y2 line = toMinimapY (pos_y (node_position toNode) + 40).
Proof.
  intros Hne data toMinimapX toMinimapY.
  destruct (Object_values nodes) as [| first others] eqn:Hvalues; [done |].
  destruct (minimapData_frame nodes connections viewport first others Hvalues)
    as (_ & _ & _ & _ & Hnodes).
  fold data in Hnodes.
  assert (Hconns : md_connections data
            = omap (transform_connection (md_nodes data) (md_scale data)) connections).
  { unfold data, minimapData. by rewrite Hvalues. }
  set (f := λ node, mkMinimapNode node
                 ((pos_x (node_position node) - minX (md_bounds data)) * md_scale data + 10)
                 ((pos_y (node_position node) - minY (md_bounds data)) * md_scale data + 10))
    in Hnodes.
  assert (Htransform : ∀ c, transform_connection (md_nodes data) (md_scale data) c
            = match find_node (first :: others) (conn_from c),
                    find_node (first :: others) (conn_to c) with
              | Some fromNode, Some toNode =>
                  Some (mkMinimapLine c
                          (mn_x (f fromNode) + 60 * md_scale data)
                          (mn_y (f fromNode) + 40 * md_scale data)
                          (mn_x (f toNode) + 60 * md_scale data)
                          (mn_y (f toNode) + 40 * md_scale data))
              | _, _ => None
              end).
  { intros c. unfold transform_connection. rewrite Hnodes.
    rewrite !(find_minimap_node f) by done.
    by destruct (find_node (first :: others) (conn_from c)),
                (find_node (first :: others) (conn_to c)). }
  rewrite Hconns. split.
  - clear Hconns. clearbody data. induction connections as [| c connections IH]; [done |].
    cbn [omap list_omap]. rewrite filter_cons. rewrite Htransform.
    destruct (find_node (first :: others) (conn_from c)) as [fromNode |] eqn:Hfrom.
    + destruct (find_node (first :: others) (conn_to c)) as [toNode |] eqn:Hto.
      * rewrite decide_True.
        -- rewrite fmap_cons. cbn [ml_conn]. f_equal. exact IH.
        -- split; apply elem_of_ids.
           ++ exists fromNode. by apply find_node_Some in Hfrom as [? ?].
           ++ exists toNode. by apply find_node_Some in Hto as [? ?].
      * rewrite decide_False; [exact IH |].
        intros [_ Hin]. apply find_node_is_Some in Hin as (n & Hn & _). congruence.
    + rewrite decide_False; [exact IH |].
      intros [Hin _]. apply find_node_is_Some in Hin as (n & Hn & _). congruence.
  - intros line Hline. apply list_elem_of_omap in Hline as (c & _ & Hc).
    rewrite Htransform in Hc.
    destruct (find_node (first :: others) (conn_from c)) as [fromNode |] eqn:Hfrom; [| done].
    destruct (find_node (first :: others) (conn_to c)) as [toNode |] eqn:Hto; [| done].
    injection Hc as <-. exists fromNode, toNode.
    cbn [ml_conn ml_x1 ml_y1 ml_x2 ml_y2].
    unfold toMinimapX, toMinimapY. split; [done |]. split; [done |].
    unfold f. cbn [mn_x mn_y]. repeat split; ring.
Qed.

(** X18: a press on the minimap at the point where a node is drawn moves
    the pan so that the canvas shows the position of the node in the
    middle of the viewport. *)
Theorem minimap_press_centres_node (nodes : NodeDict) (connections : list Connection)
    (viewport : Viewport) (node : MinimapNode) :
  let data := minimapData nodes connections viewport in
  node ∈ md_nodes data →
  worldToScreen (node_position (mn_node node))
    (handleMinimapPress data viewport (mn_x node) (mn_y node)) (vp_zoom viewport)
  = mkPosition (vp_width viewport / 2) (vp_height viewport / 2).
Proof.
  intros data Hnode. unfold data in *.
  destruct (Object_values nodes) as [| first others] eqn:Hvalues.
  { rewrite minimapData_empty in Hnode by done. by apply elem_of_nil in Hnode. }
  destruct (minimapData_frame nodes connections viewport first others Hvalues)
    as (_ & Hscale & _ & _ & Hnodes).
  rewrite Hnodes in Hnode. apply list_elem_of_fmap in Hnode as (n & -> & Hn).
  unfold worldToScreen, handleMinimapPress, MINIMAP_PADDING. cbn.
  set (s := md_scale (minimapData nodes connections viewport)) in *.
  f_equal; field; lra.
Qed.

(** X19: after a press on the minimap, with a positive zoom and nodes on
    the map, the rectangle of the viewport is drawn around the pressed
    point, as long as a rectangle of that size around the point stays in
    the padded frame. *)
Theorem minimap_press_moves_viewport_rect (nodes : NodeDict) (connections : list Connection)
    (viewport : Viewport) (locationX locationY : R) :
  Object_values nodes ≠ [] →
  0 < vp_zoom viewport →
  let data := minimapData nodes connections viewport in
  let w := vp_width viewport / vp_zoom viewport * md_scale data in
  let h := vp_height viewport / vp_zoom viewport * md_scale data in
  10 <= locationX - w / 2 → locationX + w / 2 <= 110 →
  10 <= locationY - h / 2 → locationY + h / 2 <= 110 →
  md_viewportRect
    (minimapData nodes connections (pressed nodes connections viewport locationX locationY))
  = mkViewportRect (locationX - w / 2) (locationY - h / 2) w h.
Proof.
  intros Hne Hz data w h Hx1 Hx2 Hy1 Hy2.
  destruct (Object_values nodes) as [| first others] eqn:Hvalues; [done |].
  destruct (minimapData_frame nodes connections viewport first others Hvalues)
    as (_ & Hscale & _ & _ & _).
  fold data in Hscale.
  assert (Hsame : ∀ v v', md_scale (minimapData nodes connections v)
                          = md_scale (minimapData nodes connections v') ∧
                          md_bounds (minimapData nodes connections v)
                          = md_bounds (minimapData nodes connections v')).
  { intros v v'. unfold minimapData. by rewrite Hvalues. }
  set (v' := pressed nodes connections viewport locationX locationY).
  destruct (Hsame v' viewport) as [Hs Hb]. fold data in Hs, Hb.
  assert (Hrect : md_viewportRect (minimapData nodes connections v')
            = let b := md_bounds (minimapData nodes connections v') in
              let s := md_scale (minimapData nodes connections v') in
              let vx := (- pos_x (vp_pan v') / vp_zoom v' - minX b) * s + 10 in
              let vy := (- pos_y (vp_pan v') / vp_zoom v' - minY b) * s + 10 in
              let vw := vp_width v' / vp_zoom v' * s in
              let vh := vp_height v' / vp_zoom v' * s in
              mkViewportRect (Rmax 10 (Rmin (120 - 10 - vw) vx))
                             (Rmax 10 (Rmin (120 - 10 - vh) vy))
                             (Rmin vw (120 - 2 * 10)) (Rmin vh (120 - 2 * 10))).
  { unfold minimapData. by rewrite Hvalues. }
  rewrite Hrect, Hs, Hb. cbv zeta.
  unfold v', pressed, handleMinimapPress, MINIMAP_PADDING.
  cbn [vp_pan vp_zoom vp_width vp_height pos_x pos_y]. fold data. fold w h.
  replace ((- - ((((locationX - 10) / md_scale data + minX (md_bounds data))
                  * vp_zoom viewport - vp_width viewport / 2)) / vp_zoom viewport
            - minX (md_bounds data)) * md_scale data + 10)
    with (locationX - w / 2) by (unfold w; field; lra).
  replace ((- - ((((locationY - 10) / md_scale data + minY (md_bounds data))
                  * vp_zoom viewport - vp_height viewport / 2)) / vp_zoom viewport
            - minY (md_bounds data)) * md_scale data + 10)
    with (locationY - h / 2) by (unfold h; field; lra).
  f_equal; unfold Rmax, Rmin; repeat destruct (Rle_dec _ _); lra.
Qed.

(** ** The store *)

Lemma dict_put_keys (nodes : NodeDict) k node :
  (dict_put nodes k node).*1 = if decide (k ∈ nodes.*1) then nodes.*1 else nodes.*1 ++ [k].
Proof.
  unfold dict_put. case_decide.
  - rewrite <- list_fmap_compose. by apply list_fmap_ext.
  - by rewrite fmap_app.
Qed.

Lemma dict_get_None (nodes : NodeDict) k : dict_get nodes k = None ↔ k ∉ nodes.*1.
Proof. unfold dict_get. symmetry. apply not_elem_of_list_to_map. Qed.

Lemma dict_get_is_Some (nodes : NodeDict) k : is_Some (dict_get nodes k) ↔ k ∈ nodes.*1.
Proof.
  rewrite <- not_eq_None_Some, dict_get_None. split; [| by auto].
  intros Hnn. by destruct (decide (k ∈ nodes.*1)).
Qed.

Lemma keys_elem (nodes : NodeDict) k : k ∈ keys nodes ↔ k ∈ nodes.*1.
Proof. rewrite elem_of_keys. apply dict_get_is_Some. Qed.

Lemma dict_get_put (nodes : NodeDict) k node k' :
  dict_get (dict_put nodes k node) k' = if decide (k' = k) then Some node else dict_get nodes k'.
Proof.
  unfold dict_put. case_decide as Hin.
  - unfold dict_get. induction nodes as [| [k0 n0] nodes IH].
    + by apply elem_of_nil in Hin.
    + rewrite fmap_cons. cbn [fst snd list_to_map foldr]. cbn [fmap list_fmap fst] in Hin.
      destruct (decide (k0 = k')) as [-> | Hne].
      * rewrite !lookup_insert_eq. by repeat case_decide.
      * rewrite !lookup_insert_ne by done.
        destruct (decide (k ∈ nodes.*1)) as [Hin' | Hout]; [by apply IH |].
        apply elem_of_cons in Hin as [-> | Hin]; [| done].
        assert (Hsame : ((λ kn : string * Node,
                   (kn.1, if decide (kn.1 = k0) then node else kn.2)) <$> nodes) = nodes).
        { rewrite <- (list_fmap_id nodes) at 2. apply list_fmap_ext.
          intros i [k1 n1] Hi. simpl. destruct (decide (k1 = k0)) as [-> | ?]; [| done].
          exfalso. apply Hout. apply list_elem_of_fmap. exists (k0, n1).
          split; [done |]. by eapply list_elem_of_lookup_2. }
        rewrite Hsame. by rewrite decide_False by done.
  - unfold dict_get. rewrite list_to_map_app. cbn [list_to_map foldr].
    rewrite lookup_union. case_decide as Heq.
    + subst k'. rewrite (proj1 (not_elem_of_list_to_map _ _) Hin).
      by rewrite lookup_insert_eq.
    + rewrite lookup_insert_ne by done. rewrite lookup_empty.
      by destruct (list_to_map nodes !! k').
Qed.

Lemma dict_get_delete (nodes : NodeDict) k k' :
  dict_get (dict_delete nodes k) k' = if decide (k' = k) then None else dict_get nodes k'.
Proof.
  unfold dict_delete, dict_get. induction nodes as [| [k0 n0] nodes IH].
  - by case_decide.
  - rewrite (filter_cons (λ kn : string * Node, kn.1 ≠ k)). cbn [fst].
    destruct (decide (k0 ≠ k)) as [Hk0 | Hk0].
    + cbn [list_to_map foldr]. destruct (decide (k0 = k')) as [-> | Hne].
      * rewrite !lookup_insert_eq. by rewrite decide_False.
      * rewrite !lookup_insert_ne by done. exact IH.
    + apply dec_stable in Hk0. subst k0. etrans; [exact IH |]. cbn [list_to_map foldr].
      case_decide; [done |]. by rewrite lookup_insert_ne.
Qed.

(** What the loop over the entries of [newPositions] leaves. *)
Lemma update_positions_spec (nodes : NodeDict) (newPositions : Positions) :
  (update_positions nodes newPositions).*1 = nodes.*1 ∧
  ∀ k, dict_get (update_positions nodes newPositions) k
       = (λ n, mkNode (node_id n) (default (node_position n) (newPositions !! k)))
           <$> dict_get nodes k.
Proof.
  unfold update_positions.
  apply (map_fold_weak_ind
           (λ r (m : Positions), r.*1 = nodes.*1 ∧
              ∀ k, dict_get r k
                   = (λ n, mkNode (node_id n) (default (node_position n) (m !! k)))
                       <$> dict_get nodes k)).
  - split; [done |]. intros k. destruct (dict_get nodes k) as [[i p] |]; [| done].
    by rewrite lookup_empty.
  - intros i x m r Hi [Hkeys Hget]. unfold update_position.
    destruct (dict_get r i) as [node |] eqn:Hnode.
    + assert (Hin : i ∈ r.*1) by (apply dict_get_is_Some; by rewrite Hnode).
      split.
      * rewrite dict_put_keys. by rewrite decide_True.
      * intros k. rewrite dict_get_put. case_decide as Heq.
        -- subst k. rewrite Hget in Hnode. rewrite lookup_insert_eq.
           destruct (dict_get nodes i) as [n |]; [| done].
           simpl in Hnode. injection Hnode as <-. done.
        -- rewrite lookup_insert_ne by done. apply Hget.
    + split; [done |]. intros k. rewrite Hget.
      destruct (decide (k = i)) as [-> | Hne]; [| by rewrite lookup_insert_ne].
      rewrite Hget in Hnode. by destruct (dict_get nodes i).
Qed.


Lemma keys_update_positions (nodes : NodeDict) (newPositions : Positions) :
  keys (update_positions nodes newPositions) = keys nodes.
Proof.
  apply set_eq. intros k. rewrite !keys_elem.
  by destruct (update_positions_spec nodes newPositions) as [-> _].
Qed.


Lemma keyed_by_id_delete (nodes : NodeDict) k :
  keyed_by_id nodes → keyed_by_id (dict_delete nodes k).
Proof.
  intros [Hnd Hkey]. split.
  - eapply sublist_NoDup; [exact Hnd |]. apply fmap_sublist. apply sublist_filter.
  - intros k' n Hin. apply list_elem_of_filter in Hin as [_ Hin]. by apply Hkey.
Qed.

Lemma keyed_by_id_ids (nodes : NodeDict) k :
  keyed_by_id nodes → k ∈ ids (Object_values nodes) ↔ k ∈ keys nodes.
Proof.
  intros Hkeyed. rewrite elem_of_ids, elem_of_keys. split.
  - intros (n & Hn & <-). rewrite (keyed_by_id_get nodes n) by done. by eexists.
  - intros [n Hn]. exists n. split; [| by eapply keyed_by_id_id].
    apply Object_values_elem. exists k. apply dict_get_Some; [by destruct Hkeyed | done].
Qed.

Lemma store_applyLayout_unfold (m : MindMap) a options r :
  Store.applyLayout (Some m) a options = r →
  ∃ merged,
    algorithm merged = default a (partial_algorithm options) ∧
    r = (newPositions ← applyLayout (map_nodes m) (map_connections m) merged;
         Returns (Some (mkMindMap (update_positions (map_nodes m) newPositions)
                                  (map_connections m)))).
Proof.
  intros <-. unfold Store.applyLayout. eexists. split; [| reflexivity]. reflexivity.
Qed.



Lemma applyLayout_returns (nodes : NodeDict) (connections : list Connection)
    (options : LayoutOptions) :
  dependencies_attached (Object_values nodes) connections →
  ∃ positions, applyLayout nodes connections options = Returns positions.
Proof.
  intros Hattached. unfold applyLayout. case_decide; [by eexists |].
  destruct (algorithm options); try by eexists.
  by apply hierarchicalLayout_returns.
Qed.

(** X22: in a map whose nodes are filed under their identifiers and whose
    connections all join two nodes, [deleteNode] removes the node and
    every connection that has it as an end, leaves the other nodes and
    connections, and every connection still joins two nodes; so a layout
    applied afterwards returns and does not throw. *)
Theorem store_deleteNode_leaves_no_dangling (m m' : MindMap) (nodeId : string) :
  keyed_by_id (map_nodes m) →
  well_connected m →
  Store.deleteNode (Some m) nodeId = Some m' →
  (∀ k, dict_get (map_nodes m') k = if decide (k = nodeId) then None
                                    else dict_get (map_nodes m) k) ∧
  (∀ c, c ∈ map_connections m' ↔
        c ∈ map_connections m ∧ conn_from c ≠ nodeId ∧ conn_to c ≠ nodeId) ∧
  well_connected m' ∧
  ∀ a options, ∃ m'', Store.applyLayout (Some m') a options = Returns (Some m'').
Proof.
  intros Hkeyed Hwell [= <-]. cbn [map_nodes map_connections].
  assert (Hget : ∀ k, dict_get (dict_delete (map_nodes m) nodeId) k
                      = if decide (k = nodeId) then None else dict_get (map_nodes m) k)
    by (intros k; apply dict_get_delete).
  assert (Hconn : ∀ c, c ∈ filter (λ c, conn_from c ≠ nodeId ∧ conn_to c ≠ nodeId)
                             (map_connections m) ↔
                       c ∈ map_connections m ∧ conn_from c ≠ nodeId ∧ conn_to c ≠ nodeId).
  { intros c. rewrite list_elem_of_filter. tauto. }
  assert (Hwell' : well_connected
            (mkMindMap (dict_delete (map_nodes m) nodeId)
               (filter (λ c, conn_from c ≠ nodeId ∧ conn_to c ≠ nodeId)
                  (map_connections m)))).
  { intros c Hc. cbn [map_connections map_nodes] in *.
    apply Hconn in Hc as (Hc & Hfrom & Hto). destruct (Hwell c Hc) as [Hf Ht].
    split; apply elem_of_keys; rewrite Hget; rewrite decide_False by done;
      by apply elem_of_keys. }
  split; [done |]. split; [done |]. split; [done |].
  intros a options.
  set (m1 := mkMindMap (dict_delete (map_nodes m) nodeId) _) in *.
  destruct (store_applyLayout_unfold m1 a options _ eq_refl) as (merged & _ & ->).
  unfold m1. cbn [map_nodes map_connections].
  destruct (applyLayout_returns (dict_delete (map_nodes m) nodeId)
              (filter (λ c, conn_from c ≠ nodeId ∧ conn_to c ≠ nodeId) (map_connections m))
              merged) as [positions ->].
  - intros c Hc. apply list_elem_of_filter in Hc as [_ Hc].
    destruct (Hwell' c Hc) as [Hf Ht]. cbn [map_nodes] in Hf, Ht.
    pose proof (keyed_by_id_delete _ nodeId Hkeyed) as Hkeyed'.
    split; by apply keyed_by_id_ids.
  - by eexists.
Qed.


(** ** Circular layout: no two nodes at one point *)

(** Two angles of one turn with the same cosine and the same sine. *)
Lemma same_point_same_angle (a b : R) :
  0 <= a < 2 * PI → 0 <= b < 2 * PI → cos a = cos b → sin a = sin b → a = b.
Proof.
  intros Ha Hb Hcos Hsin.
  assert (Hs : sin (a - b) = 0) by (rewrite sin_minus, Hcos, Hsin; ring).
  assert (Hc : cos (a - b) = 1).
  { rewrite cos_minus, Hcos, Hsin.
    pose proof (sin2_cos2 b) as Hone. unfold Rsqr in Hone. lra. }
  apply sin_eq_0_0 in Hs as [k Hk].
  pose proof PI_RGT_0 as Hpi.
  assert (Hlow : (-2 < k)%Z).
  { apply lt_IZR. apply (Rmult_lt_reg_r PI); [lra |]. rewrite <- Hk. lra. }
  assert (Hhigh : (k < 2)%Z).
  { apply lt_IZR. apply (Rmult_lt_reg_r PI); [lra |]. rewrite <- Hk. lra. }
  assert (Hcases : k = (-1)%Z ∨ k = 0%Z ∨ k = 1%Z) by lia.
  destruct Hcases as [-> | [-> | ->]].
  - exfalso. rewrite Hk in Hc.
    replace (IZR (-1) * PI) with (- PI) in Hc by lra.
    rewrite cos_neg, cos_PI in Hc. lra.
  - lra.
  - exfalso. rewrite Hk in Hc. rewrite Rmult_1_l, cos_PI in Hc. lra.
Qed.

Lemma circularLayout_at nodes options i node :
  NoDup (ids nodes) → nodes !! i = Some node →
  circularLayout nodes options !! node_id node
  = Some (mkPosition
            (or_default (centerX options) 0
             + cos (INR i / INR (length nodes) * 2 * PI) * or_default (spacing options) 200)
            (or_default (centerY options) 0
             + sin (INR i / INR (length nodes) * 2 * PI) * or_default (spacing options) 200)).
Proof.
  intros Hnd Hi. unfold circularLayout. cbv zeta.
  by rewrite (write_each_at _ _ 0%nat ∅ i node Hnd Hi).
Qed.

(** X24: the circular layout never puts two nodes of a node set at the
    same point: the radius is never 0, and the angles of two different
    indices are different angles of one turn. *)
Theorem circular_distinct_positions (nodes : list Node) (options : LayoutOptions)
    (i j : nat) (ni nj : Node) :
  NoDup (ids nodes) →
  nodes !! i = Some ni → nodes !! j = Some nj → i ≠ j →
  circularLayout nodes options !! node_id ni ≠ circularLayout nodes options !! node_id nj.
Proof.
  intros Hnd Hi Hj Hne.
  rewrite (circularLayout_at nodes options i ni Hnd Hi).
  rewrite (circularLayout_at nodes options j nj Hnd Hj).
  pose proof (or_default_ne_0 (spacing options) 200 ltac:(lra)) as Hr.
  set (r := or_default (spacing options) 200) in *.
  intros [= Hx Hy]. apply Hne.
  assert (HiN : (i < length nodes)%nat) by (by eapply lookup_lt_Some).
  assert (HjN : (j < length nodes)%nat) by (by eapply lookup_lt_Some).
  assert (HN : 0 < INR (length nodes)) by (apply lt_0_INR; lia).
  pose proof PI_RGT_0 as Hpi.
  assert (Hturn : ∀ k : nat, (k < length nodes)%nat →
            0 <= INR k / INR (length nodes) * 2 * PI < 2 * PI).
  { intros k Hk. apply lt_INR in Hk. pose proof (pos_INR k) as Hk0.
    assert (Hfrac : 0 <= INR k / INR (length nodes) < 1).
    { split.
      - apply Rmult_le_pos; [done |]. left. by apply Rinv_0_lt_compat.
      - apply (Rmult_lt_reg_r (INR (length nodes))); [done |].
        replace (INR k / INR (length nodes) * INR (length nodes)) with (INR k)
          by (field; lra).
        lra. }
    split; nra. }
  assert (Hangle : INR i / INR (length nodes) * 2 * PI = INR j / INR (length nodes) * 2 * PI).
  { apply same_point_same_angle; [by apply Hturn | by apply Hturn | |].
    - apply (Rmult_eq_reg_r r); [lra | done].
    - apply (Rmult_eq_reg_r r); [lra | done]. }
  apply INR_eq.
  apply (Rmult_eq_reg_r (/ INR (length nodes) * 2 * PI)).
  - unfold Rdiv in Hangle. lra.
  - apply Rmult_integral_contrapositive_currified; [| lra].
    apply Rmult_integral_contrapositive_currified; [| lra].
    apply Rinv_neq_0_compat. lra.
Qed.

(** ** Hierarchical layout: only the dependencies are read *)

Lemma build_graph_dependencies nodes connections :
  build_graph nodes (dependencies connections) = build_graph nodes connections.
Proof.
  unfold build_graph, dependencies. generalize (init_graph nodes).
  induction connections as [| c cs IH]; intros st; [done |].
  rewrite filter_cons. destruct (decide (conn_type c = dependency)) as [Hdep | Hother].
  - cbn [forEach_throwing]. destruct (add_dependency st c) as [st' | |]; [| done | done].
    cbn [mbind outcome_bind]. apply IH.
  - cbn [forEach_throwing]. rewrite IH. unfold add_dependency. destruct st as [graph inDegree].
    by rewrite decide_False.
Qed.

(** X25: the hierarchical layout reads the dependency connections only:
    it returns, or throws, what it does for the list of connections
    without those of another type. *)
Theorem hierarchical_reads_dependencies_only (nodes : list Node)
    (connections : list Connection) (options : LayoutOptions) :
  hierarchicalLayout nodes connections options
  = hierarchicalLayout nodes (dependencies connections) options.
Proof. unfold hierarchicalLayout. by rewrite build_graph_dependencies. Qed.

(** ** Minimap: the rectangle of the viewport is the screen *)

Lemma scaled_between (k u w v : R) :
  0 < k → (0 <= u <= w ↔ v <= v + u * k <= v + w * k).
Proof.
  intros Hk. split.
  - intros [Hu Hw]. split.
    + pose proof (Rmult_le_pos u k Hu ltac:(lra)). lra.
    + pose proof (Rmult_le_compat_r k u w ltac:(lra) Hw). lra.
  - intros [Hu Hw]. split.
    + apply (Rmult_le_reg_r k); [done |]. lra.
    + apply (Rmult_le_reg_r k); [done |]. lra.
Qed.

(** X26: with nodes on the map and zoom > 0, as long as the rectangle of
    the viewport need not be clamped to the padded frame, a point of the
    world is drawn inside that rectangle on the minimap exactly when the
    canvas shows it on the screen. *)
Theorem minimap_viewport_rect_is_screen (nodes : NodeDict) (connections : list Connection)
    (viewport : Viewport) (p : Position) :
  Object_values nodes ≠ [] →
  0 < vp_zoom viewport →
  let data := minimapData nodes connections viewport in
  let r := md_viewportRect data in
  let toMinimapX x := (x - minX (md_bounds data)) * md_scale data + 10 in
  let toMinimapY y := (y - minY (md_bounds data)) * md_scale data + 10 in
  let q := worldToScreen p (vp_pan viewport) (vp_zoom viewport) in
  10 <= toMinimapX (- pos_x (vp_pan viewport) / vp_zoom viewport) →
  toMinimapX ((- pos_x (vp_pan viewport) + vp_width viewport) / vp_zoom viewport) <= 110 →
  10 <= toMinimapY (- pos_y (vp_pan viewport) / vp_zoom viewport) →
  toMinimapY ((- pos_y (vp_pan viewport) + vp_height viewport) / vp_zoom viewport) <= 110 →
  (0 <= pos_x q <= vp_width viewport ∧ 0 <= pos_y q <= vp_height viewport) ↔
  (vr_x r <= toMinimapX (pos_x p) <= vr_x r + vr_width r ∧
   vr_y r <= toMinimapY (pos_y p) <= vr_y r + vr_height r).
Proof.
  intros Hne Hz data r toMinimapX toMinimapY q Hx1 Hx2 Hy1 Hy2.
  destruct (Object_values nodes) as [| first others] eqn:Hvalues; [done |].
  destruct (minimapData_frame nodes connections viewport first others Hvalues)
    as (_ & Hscale & _ & _ & _).
  fold data in Hscale.
  assert (Hrect : r
            = let vx := toMinimapX (- pos_x (vp_pan viewport) / vp_zoom viewport) in
              let vy := toMinimapY (- pos_y (vp_pan viewport) / vp_zoom viewport) in
              let vw := vp_width viewport / vp_zoom viewport * md_scale data in
              let vh := vp_height viewport / vp_zoom viewport * md_scale data in
              mkViewportRect (Rmax 10 (Rmin (120 - 10 - vw) vx))
                             (Rmax 10 (Rmin (120 - 10 - vh) vy))
                             (Rmin vw (120 - 2 * 10)) (Rmin vh (120 - 2 * 10))).
  { unfold r, toMinimapX, toMinimapY, data, minimapData. by rewrite Hvalues. }
  set (k := md_scale data / vp_zoom viewport).
  assert (Hk : 0 < k) by (by apply Rdiv_lt_0_compat).
  set (vx := toMinimapX (- pos_x (vp_pan viewport) / vp_zoom viewport)) in *.
  set (vy := toMinimapY (- pos_y (vp_pan viewport) / vp_zoom viewport)) in *.
  assert (Hright : toMinimapX ((- pos_x (vp_pan viewport) + vp_width viewport)
                               / vp_zoom viewport) = vx + vp_width viewport * k).
  { unfold vx, toMinimapX, k. field. lra. }
  assert (Hbottom : toMinimapY ((- pos_y (vp_pan viewport) + vp_height viewport)
                                / vp_zoom viewport) = vy + vp_height viewport * k).
  { unfold vy, toMinimapY, k. field. lra. }
  assert (Hpx : toMinimapX (pos_x p) = vx + pos_x q * k).
  { unfold vx, toMinimapX, k, q, worldToScreen. simpl. field. lra. }
  assert (Hpy : toMinimapY (pos_y p) = vy + pos_y q * k).
  { unfold vy, toMinimapY, k, q, worldToScreen. simpl. field. lra. }
  rewrite Hright in Hx2. rewrite Hbottom in Hy2.
  assert (Hr : r = mkViewportRect vx vy (vp_width viewport * k) (vp_height viewport * k)).
  { rewrite Hrect. cbv zeta.
    replace (vp_width viewport / vp_zoom viewport * md_scale data)
      with (vp_width viewport * k) by (unfold k; field; lra).
    replace (vp_height viewport / vp_zoom viewport * md_scale data)
      with (vp_height viewport * k) by (unfold k; field; lra).
    f_equal; unfold Rmax, Rmin; repeat destruct (Rle_dec _ _); lra. }
  rewrite Hr, Hpx, Hpy. cbn [vr_x vr_y vr_width vr_height].
  rewrite <- (scaled_between k (pos_x q) (vp_width viewport) vx Hk).
  rewrite <- (scaled_between k (pos_y q) (vp_height viewport) vy Hk).
  done.
Qed.

(** ** The properties at concrete inputs *)


Lemma visibleNodes_iff_box_meets_viewport_witness :
  0 <= 400 ∧ 0 <= 800 ∧ 0 < 1 ∧
  (mkNode "a" origin ∈ visibleNodes 400 800 (Some one_node_map) origin 1 ↔
   mkNode "a" origin ∈ Object_values (map_nodes one_node_map) ∧
   intersects (node_box (mkNode "a" origin)) (viewport 400 800 origin 1)).
Proof.
  split; [lra |]. split; [lra |]. split; [lra |].
  exact (proj2 (visibleNodes_iff_box_meets_viewport 400 800 ltac:(lra) ltac:(lra)
                  one_node_map origin 1 (mkNode "a" origin) ltac:(lra))).
Defined.

Lemma far_map_keyed : keyed_by_id (map_nodes far_map).
Proof.
  split.
  - apply NoDup_cons. split; [| apply NoDup_singleton].
    intros Hin. apply list_elem_of_singleton in Hin. discriminate.
  - intros k n Hin. apply elem_of_cons in Hin as [Hin | Hin].
    + by injection Hin as -> ->.
    + apply list_elem_of_singleton in Hin. by injection Hin as -> ->.
Defined.

Lemma far_map_visible :
  ∀ n, n ∈ [mkNode "a" origin] → n ∈ Object_values (map_nodes far_map).
Proof. intros n Hn. apply list_elem_of_singleton in Hn. subst n. by left. Defined.

Lemma visibleConnections_iff_both_ends_visible_witness :
  keyed_by_id (map_nodes far_map) ∧
  (∀ n, n ∈ [mkNode "a" origin] → n ∈ Object_values (map_nodes far_map)) ∧
  mkConnection "c1" "a" "b" related
    ∉ visibleConnections (Some far_map) [mkNode "a" origin].
Proof.
  split; [exact far_map_keyed |]. split; [exact far_map_visible |].
  apply (proj2 (visibleConnections_iff_both_ends_visible far_map [mkNode "a" origin]
                  (mkConnection "c1" "a" "b" related) far_map_keyed far_map_visible)).
  intros [_ (n & Hget & Hin)]. apply list_elem_of_singleton in Hin. subst n.
  unfold dict_get in Hget. simpl in Hget.
  rewrite lookup_insert_ne in Hget by done. rewrite lookup_insert_eq in Hget.
  discriminate.
Defined.

Lemma screenToWorld_worldToScreen_witness :
  0 < 2 ∧
  screenToWorld (worldToScreen (mkPosition 3 4) (mkPosition 10 20) 2) (mkPosition 10 20) 2
  = mkPosition 3 4.
Proof.
  split; [lra |].
  exact (proj2 (proj2 (screenToWorld_worldToScreen (mkPosition 3 4) (mkPosition 10 20) 2
                         ltac:(lra)))).
Defined.



Lemma pair_nodes_NoDup : NoDup (ids pair_nodes).
Proof.
  apply NoDup_cons. split; [| apply NoDup_singleton].
  intros Hin. apply list_elem_of_singleton in Hin. discriminate.
Defined.


Lemma abc_nodes_NoDup : NoDup (ids abc_nodes).
Proof.
  apply NoDup_cons. split.
  { intros Hin. apply elem_of_cons in Hin as [Hin | Hin]; [discriminate |].
    apply list_elem_of_singleton in Hin. discriminate. }
  apply NoDup_cons. split; [| apply NoDup_singleton].
  intros Hin. apply list_elem_of_singleton in Hin. discriminate.
Defined.

Lemma abc_layout :
  hierarchicalLayout abc_nodes abc_connections (default_options hierarchical)
  = Returns abc_positions.
Proof. by vm_compute. Defined.

Lemma hierarchical_dependency_below_witness :
  NoDup (ids abc_nodes) ∧
  hierarchicalLayout abc_nodes abc_connections (default_options hierarchical)
    = Returns abc_positions ∧
  ∃ pf pt, abc_positions !! "a" = Some pf ∧ abc_positions !! "b" = Some pt ∧
           pos_y pf < pos_y pt.
Proof.
  split; [exact abc_nodes_NoDup |]. split; [exact abc_layout |].
  eexists _, _. split; [reflexivity |]. split; [reflexivity |].
  apply (hierarchical_dependency_below abc_nodes abc_connections
           (default_options hierarchical) abc_positions abc_nodes_NoDup I abc_layout
           (mkConnection "c1" "a" "b" dependency)).
  - by left.
  - reflexivity.
  - reflexivity.
  - reflexivity.
Defined.


(** ** The further properties at concrete inputs *)

Lemma grid_distinct_positions_witness :
  NoDup (ids pair_nodes) ∧
  gridLayout pair_nodes (default_options grid) !! "a"
    ≠ gridLayout pair_nodes (default_options grid) !! "b".
Proof.
  split; [exact pair_nodes_NoDup |].
  exact (grid_distinct_positions pair_nodes (default_options grid) 0 1
           (mkNode "a" origin) (mkNode "b" origin) pair_nodes_NoDup eq_refl eq_refl
           ltac:(discriminate)).
Defined.

Lemma grid_block_is_centred_witness :
  ∃ p, gridLayout pair_nodes (default_options grid) !! "b" = Some p ∧
       Rabs (pos_x p - 0) <= (INR 2 - 1) * Rabs 150 / 2.
Proof.
  pose proof (gridLayout_at pair_nodes (default_options grid) 1 (mkNode "b" origin)
                pair_nodes_NoDup eq_refl) as Hb.
  eexists. split; [exact Hb |].
  exact (proj1 (proj2 (proj2 (proj2
           (grid_block_is_centred pair_nodes (default_options grid) "b" _ Hb))))).
Defined.


Lemma abc_attached : dependencies_attached abc_nodes abc_connections.
Proof.
  intros c Hc. apply list_elem_of_filter in Hc as [Hdep Hc].
  apply elem_of_cons in Hc as [-> | Hc].
  - split; [by left | right; by left].
  - apply list_elem_of_singleton in Hc. subst c. discriminate.
Defined.


Lemma hierarchical_returns_when_attached_witness :
  dependencies_attached abc_nodes abc_connections ∧
  ∃ positions,
    hierarchicalLayout abc_nodes abc_connections (default_options hierarchical)
    = Returns positions.
Proof.
  split; [exact abc_attached |].
  exact (hierarchical_returns_when_attached abc_nodes abc_connections
           (default_options hierarchical) abc_attached).
Defined.


Lemma hierarchical_level_is_longest_chain_witness :
  NoDup (ids abc_nodes) ∧
  hierarchicalLayout abc_nodes abc_connections (default_options hierarchical)
    = Returns abc_positions ∧
  abc_positions !! "b"
    = Some (mkPosition (0 - INR 1 * 200 / 2 + INR 0 * 200) (0 + INR 1 * 200)) ∧
  ∃ k, 0 + INR 1 * 200 = 0 + INR k * 200 ∧
       chain (dependencies abc_connections) "b" k ∧
       ∀ k', chain (dependencies abc_connections) "b" k' → (k' <= k)%nat.
Proof.
  split; [exact abc_nodes_NoDup |]. split; [exact abc_layout |].
  split; [reflexivity |].
  exact (hierarchical_level_is_longest_chain abc_nodes abc_connections
           (default_options hierarchical) abc_positions "b" _
           abc_nodes_NoDup abc_layout eq_refl).
Defined.

Lemma hierarchical_distinct_positions_witness :
  hierarchicalLayout abc_nodes abc_connections (default_options hierarchical)
    = Returns abc_positions ∧
  "a" ≠ "c" ∧
  abc_positions !! "a"
    = Some (mkPosition (0 - INR 2 * 200 / 2 + INR 0 * 200) (0 + INR 0 * 200)) ∧
  abc_positions !! "c"
    = Some (mkPosition (0 - INR 2 * 200 / 2 + INR 1 * 200) (0 + INR 0 * 200)) ∧
  mkPosition (0 - INR 2 * 200 / 2 + INR 0 * 200) (0 + INR 0 * 200)
    ≠ mkPosition (0 - INR 2 * 200 / 2 + INR 1 * 200) (0 + INR 0 * 200).
Proof.
  split; [exact abc_layout |]. split; [discriminate |].
  split; [reflexivity |]. split; [reflexivity |].
  exact (hierarchical_distinct_positions abc_nodes abc_connections
           (default_options hierarchical) abc_positions "a" "c" _ _
           abc_layout ltac:(discriminate) eq_refl eq_refl).
Defined.






Lemma visibleNodes_iff_drawn_near_screen_witness :
  0 < 1 ∧
  mkNode "a" origin ∈ Object_values (map_nodes one_node_map) ∧
  0 <= pos_x (worldToScreen origin origin 1) <= 400 ∧
  0 <= pos_y (worldToScreen origin origin 1) <= 800 ∧
  mkNode "a" origin ∈ visibleNodes 400 800 (Some one_node_map) origin 1.
Proof.
  assert (Hin : mkNode "a" origin ∈ Object_values (map_nodes one_node_map)) by (by left).
  assert (Hx : 0 <= pos_x (worldToScreen origin origin 1) <= 400) by (simpl; lra).
  assert (Hy : 0 <= pos_y (worldToScreen origin origin 1) <= 800) by (simpl; lra).
  split; [lra |]. split; [exact Hin |]. split; [exact Hx |]. split; [exact Hy |].
  exact (proj2 (visibleNodes_iff_drawn_near_screen 400 800 one_node_map origin 1
                  (mkNode "a" origin) ltac:(lra)) Hin Hx Hy).
Defined.

Lemma two_node_map_line :
  mkConnection "c1" "a" "b" dependency
    ∈ visibleConnections (Some two_node_map)
        (visibleNodes 400 800 (Some two_node_map) origin 1).
Proof.
  assert (Ha : mkNode "a" (mkPosition 0 0)
                 ∈ visibleNodes 400 800 (Some two_node_map) origin 1).
  { apply list_elem_of_filter. split; [| by left].
    unfold node_in_view, buffer. simpl. lra. }
  assert (Hb : mkNode "b" (mkPosition 100 50)
                 ∈ visibleNodes 400 800 (Some two_node_map) origin 1).
  { apply list_elem_of_filter. split; [| right; by left].
    unfold node_in_view, buffer. simpl. lra. }
  apply list_elem_of_filter. split; [| by left].
  split; [by eexists |]. split; [by eexists |].
  split; apply Exists_exists.
  - exists (mkNode "a" (mkPosition 0 0)). split; [| done].
    exact Ha.
  - exists (mkNode "b" (mkPosition 100 50)). split; [| done].
    exact Hb.
Qed.

Lemma renderConnections_lines_near_screen_witness :
  keyed_by_id (map_nodes two_node_map) ∧ 0 < 1 ∧
  ∃ lines,
    renderConnections (Some two_node_map)
      (visibleConnections (Some two_node_map)
         (visibleNodes 400 800 (Some two_node_map) origin 1)) origin 1 = Some lines ∧
    length lines
      = length (visibleConnections (Some two_node_map)
                  (visibleNodes 400 800 (Some two_node_map) origin 1)).
Proof.
  split; [exact two_node_map_keyed |]. split; [lra |].
  pose proof (renderConnections_Some (Some two_node_map) _ origin 1 _ two_node_map_line)
    as Hrun.
  eexists. split; [exact Hrun |].
  exact (proj1 (renderConnections_lines_near_screen 400 800 two_node_map origin 1 _
                  two_node_map_keyed ltac:(lra) Hrun)).
Defined.

Lemma minimap_nodes_inside_frame_witness :
  ∃ node,
    node ∈ md_nodes (minimapData lone_node [] window_1) ∧
    10 <= mn_x node ∧ 10 <= mn_y node.
Proof.
  destruct (minimapData_frame lone_node [] window_1 (mkNode "a" origin) [] eq_refl)
    as (_ & _ & _ & _ & Hnodes).
  assert (Hin : mkMinimapNode (mkNode "a" origin)
                  ((pos_x origin - minX (md_bounds (minimapData lone_node [] window_1)))
                   * md_scale (minimapData lone_node [] window_1) + 10)
                  ((pos_y origin - minY (md_bounds (minimapData lone_node [] window_1)))
                   * md_scale (minimapData lone_node [] window_1) + 10)
                ∈ md_nodes (minimapData lone_node [] window_1)).
  { rewrite Hnodes. by left. }
  eexists. split; [exact Hin |].
  pose proof (minimap_nodes_inside_frame lone_node [] window_1 _ Hin)
    as (_ & _ & _ & Hx & _ & Hy & _).
  split; [exact Hx | exact Hy].
Defined.

Lemma minimap_viewport_inside_frame_witness :
  Object_values lone_node ≠ [] ∧
  vp_zoom window_1 ≠ 0 ∧
  10 <= vr_x (md_viewportRect (minimapData lone_node [] window_1)) ∧
  vr_x (md_viewportRect (minimapData lone_node [] window_1))
    + vr_width (md_viewportRect (minimapData lone_node [] window_1)) <= 110.
Proof.
  assert (Hne : Object_values lone_node ≠ []) by discriminate.
  assert (Hz : vp_zoom window_1 ≠ 0) by (simpl; lra).
  split; [exact Hne |]. split; [exact Hz |].
  pose proof (minimap_viewport_inside_frame lone_node [] window_1 Hne Hz)
    as (Hx & Hw & _).
  split; [exact Hx | exact Hw].
Defined.

Lemma minimap_lines_join_found_nodes_witness :
  Object_values (map_nodes two_node_map) ≠ [] ∧
  ml_conn <$> md_connections
                (minimapData (map_nodes two_node_map) (map_connections two_node_map) window_1)
  = filter (λ c, conn_from c ∈ ids (Object_values (map_nodes two_node_map)) ∧
                 conn_to c ∈ ids (Object_values (map_nodes two_node_map)))
           (map_connections two_node_map).
Proof.
  assert (Hne : Object_values (map_nodes two_node_map) ≠ []) by discriminate.
  split; [exact Hne |].
  exact (proj1 (minimap_lines_join_found_nodes (map_nodes two_node_map)
                  (map_connections two_node_map) window_1 Hne)).
Defined.

Lemma minimap_press_centres_node_witness :
  ∃ node,
    node ∈ md_nodes (minimapData lone_node [] window_1) ∧
    worldToScreen (node_position (mn_node node))
      (handleMinimapPress (minimapData lone_node [] window_1) window_1
         (mn_x node) (mn_y node)) (vp_zoom window_1)
    = mkPosition (vp_width window_1 / 2) (vp_height window_1 / 2).
Proof.
  destruct (minimapData_frame lone_node [] window_1 (mkNode "a" origin) [] eq_refl)
    as (_ & _ & _ & _ & Hnodes).
  assert (Hin : mkMinimapNode (mkNode "a" origin)
                  ((pos_x origin - minX (md_bounds (minimapData lone_node [] window_1)))
                   * md_scale (minimapData lone_node [] window_1) + 10)
                  ((pos_y origin - minY (md_bounds (minimapData lone_node [] window_1)))
                   * md_scale (minimapData lone_node [] window_1) + 10)
                ∈ md_nodes (minimapData lone_node [] window_1)).
  { rewrite Hnodes. by left. }
  eexists. split; [exact Hin |].
  exact (minimap_press_centres_node lone_node [] window_1 _ Hin).
Defined.

Lemma lone_node_scale (viewport : Viewport) :
  md_scale (minimapData lone_node [] viewport) = 5 / 6.
Proof.
  unfold minimapData. cbn [Object_values lone_node fmap list_fmap snd md_scale].
  unfold Math_min, Math_max, MINIMAP_SIZE, MINIMAP_PADDING, or_num, Rmin, origin.
  cbn [fold_left fmap list_fmap node_position pos_x pos_y].
  repeat case_decide; try lra.
  destruct (Rle_dec _ _); lra.
Qed.

Lemma minimap_press_moves_viewport_rect_witness :
  Object_values lone_node ≠ [] ∧
  0 < vp_zoom window_10 ∧
  md_viewportRect (minimapData lone_node [] (pressed lone_node [] window_10 60 60))
  = mkViewportRect
      (60 - vp_width window_10 / vp_zoom window_10
              * md_scale (minimapData lone_node [] window_10) / 2)
      (60 - vp_height window_10 / vp_zoom window_10
              * md_scale (minimapData lone_node [] window_10) / 2)
      (vp_width window_10 / vp_zoom window_10 * md_scale (minimapData lone_node [] window_10))
      (vp_height window_10 / vp_zoom window_10
         * md_scale (minimapData lone_node [] window_10)).
Proof.
  assert (Hne : Object_values lone_node ≠ []) by discriminate.
  assert (Hz : 0 < vp_zoom window_10) by (simpl; lra).
  split; [exact Hne |]. split; [exact Hz |].
  apply (minimap_press_moves_viewport_rect lone_node [] window_10 60 60 Hne Hz);
    rewrite lone_node_scale; simpl; lra.
Defined.




Lemma far_map_well_connected : well_connected far_map.
Proof.
  intros c Hc. apply list_elem_of_singleton in Hc. subst c.
  split; apply elem_of_keys; by eexists.
Defined.

Lemma store_deleteNode_leaves_no_dangling_witness :
  keyed_by_id (map_nodes far_map) ∧
  well_connected far_map ∧
  Store.deleteNode (Some far_map) "b" = Some near_map ∧
  well_connected near_map ∧
  ∃ m, Store.applyLayout (Some near_map) hierarchical no_options = Returns (Some m).
Proof.
  split; [exact far_map_keyed |]. split; [exact far_map_well_connected |].
  split; [reflexivity |].
  destruct (store_deleteNode_leaves_no_dangling far_map near_map "b"
              far_map_keyed far_map_well_connected eq_refl)
    as (_ & _ & Hwell & Hlayout).
  split; [exact Hwell |]. exact (Hlayout hierarchical no_options).
Defined.


Lemma circular_distinct_positions_witness :
  NoDup (ids pair_nodes) ∧
  circularLayout pair_nodes (default_options circular) !! "a"
    ≠ circularLayout pair_nodes (default_options circular) !! "b".
Proof.
  split; [exact pair_nodes_NoDup |].
  exact (circular_distinct_positions pair_nodes (default_options circular) 0 1
           (mkNode "a" origin) (mkNode "b" origin) pair_nodes_NoDup eq_refl eq_refl
           ltac:(discriminate)).
Defined.

Lemma lone_node_bounds (viewport : Viewport) :
  md_bounds (minimapData lone_node [] viewport) = mkBounds 0 0 (0 + 120) (0 + 80).
Proof. reflexivity. Qed.

Lemma minimap_viewport_rect_is_screen_witness :
  Object_values lone_node ≠ [] ∧
  0 < vp_zoom window_10 ∧
  ((0 <= pos_x (worldToScreen (mkPosition 20 30) (vp_pan window_10) (vp_zoom window_10))
      <= vp_width window_10 ∧
    0 <= pos_y (worldToScreen (mkPosition 20 30) (vp_pan window_10) (vp_zoom window_10))
      <= vp_height window_10) ↔
   (vr_x (md_viewportRect (minimapData lone_node [] window_10))
      <= (20 - minX (md_bounds (minimapData lone_node [] window_10)))
         * md_scale (minimapData lone_node [] window_10) + 10
      <= vr_x (md_viewportRect (minimapData lone_node [] window_10))
         + vr_width (md_viewportRect (minimapData lone_node [] window_10)) ∧
    vr_y (md_viewportRect (minimapData lone_node [] window_10))
      <= (30 - minY (md_bounds (minimapData lone_node [] window_10)))
         * md_scale (minimapData lone_node [] window_10) + 10
      <= vr_y (md_viewportRect (minimapData lone_node [] window_10))
         + vr_height (md_viewportRect (minimapData lone_node [] window_10)))).
Proof.
  assert (Hne : Object_values lone_node ≠ []) by discriminate.
  assert (Hz : 0 < vp_zoom window_10) by (simpl; lra).
  split; [exact Hne |]. split; [exact Hz |].
  apply (minimap_viewport_rect_is_screen lone_node [] window_10 (mkPosition 20 30) Hne Hz);
    rewrite lone_node_scale, lone_node_bounds; simpl; lra.
Defined.
